(** * CipherVault extension: security core

    A shallow embedding of the security utilities of the extension
    (lib/security.ts, lib/crypto.ts, values/constants.ts and the PIN unlock
    handler of the popup), with the properties of its PIN lock, backoff,
    auto-lock, phishing matcher and encoding utilities.

    JavaScript numbers that the code handles here are integral (attempt
    counts, millisecond timestamps, minutes): they are modelled as [Z].
    The browser platform (chrome.storage, Date.now, crypto.subtle, URL,
    btoa/atob, TextEncoder/TextDecoder) is modelled explicitly below. *)

From Stdlib Require Import ZArith NArith Lia ZifyNat Ascii String List.
From Stdlib.Strings Require Import Byte.
From stdpp Require Import base option list gmap strings pretty.

Local Open Scope string_scope.
Local Open Scope Z_scope.

(** ** JavaScript values kept in chrome.storage *)

Inductive jsval : Type :=
  | VNum (z : Z)
  | VStr (s : string).

Global Instance jsval_eq_dec : EqDecision jsval.
Proof. solve_decision. Defined.

(** Truthiness of a looked-up entry: [undefined], [0] and the empty string
    are falsy. *)
Definition truthy (v : option jsval) : bool :=
  match v with
  | None => false
  | Some (VNum z) => negb (z =? 0)
  | Some (VStr s) => negb (String.eqb s "")
  end.

(** [(v as number) || d]: the entry read at its declared type [number],
    with the default [d] when it is absent or zero.  The cast is sound for
    the entries that the code writes with numbers only (see [typed]). *)
Definition num_or (v : option jsval) (d : Z) : Z :=
  match v with
  | Some (VNum z) => if z =? 0 then d else z
  | _ => d
  end.

(** [Number(x) || d] for a build-time environment entry [x]: [None] stands
    for an entry that is undefined or not numeric (NaN). *)
Definition env_or (x : option Z) (d : Z) : Z :=
  match x with
  | Some z => if z =? 0 then d else z
  | None => d
  end.

(** ** JavaScript strings as UTF-16 code units, and TextEncoder *)

Abbreviation jsstring := (list Z).

Definition js_of_string (s : string) : jsstring :=
  map (fun a => Z.of_N (N_of_ascii a)) (list_ascii_of_string s).

Definition byte_of_Z (z : Z) : byte :=
  match Byte.of_N (Z.to_N z) with
  | Some b => b
  | None => x00
  end.

Definition Z_of_byte (b : byte) : Z := Z.of_N (Byte.to_N b).

Global Instance byte_eq_dec : EqDecision byte := Byte.byte_eq_dec.

Definition is_high_surrogate (c : Z) : bool := (55296 <=? c) && (c <=? 56319).
Definition is_low_surrogate (c : Z) : bool := (56320 <=? c) && (c <=? 57343).

(** UTF-8 bytes of one scalar value. *)
Definition utf8_of_scalar (u : Z) : list byte :=
  if u <? 128 then [byte_of_Z u]
  else if u <? 2048 then
    [byte_of_Z (192 + u / 64); byte_of_Z (128 + u mod 64)]
  else if u <? 65536 then
    [byte_of_Z (224 + u / 4096); byte_of_Z (128 + (u / 64) mod 64);
     byte_of_Z (128 + u mod 64)]
  else
    [byte_of_Z (240 + u / 262144); byte_of_Z (128 + (u / 4096) mod 64);
     byte_of_Z (128 + (u / 64) mod 64); byte_of_Z (128 + u mod 64)].

(** The scalar values of a string: a surrogate pair is one scalar value, a
    lone surrogate is replaced by U+FFFD. *)
Fixpoint scalar_values (s : jsstring) : list Z :=
  match s with
  | [] => []
  | c :: rest =>
    if is_high_surrogate c then
      match rest with
      | d :: rest' =>
        if is_low_surrogate d
        then 65536 + (c - 55296) * 1024 + (d - 56320) :: scalar_values rest'
        else 65533 :: scalar_values rest
      | [] => [65533]
      end
    else if is_low_surrogate c then 65533 :: scalar_values rest
    else c :: scalar_values rest
  end.

(** [new TextEncoder().encode(s)]: the UTF-8 bytes of the scalar values. *)
Definition TextEncoder_encode (s : jsstring) : list byte :=
  scalar_values s ≫= utf8_of_scalar.

(** ** TextDecoder *)

(** The state of the platform's UTF-8 decoder. *)
Record utf8_state : Type := {
  code_point : Z;
  bytes_seen : Z;
  bytes_needed : Z;
  lower_boundary : Z;
  upper_boundary : Z
}.

Definition utf8_init : utf8_state :=
  {| code_point := 0; bytes_seen := 0; bytes_needed := 0;
     lower_boundary := 128; upper_boundary := 191 |}.

(** A byte read when no sequence is open: the code point it yields, if
    any, and the next state.  The masks [b & 0x1F], [b & 0xF] and [b & 0x7]
    are written as remainders. *)
Definition utf8_lead (b : Z) : option Z * utf8_state :=
  if b <=? 127 then (Some b, utf8_init)
  else if (194 <=? b) && (b <=? 223) then
    (None, {| code_point := b mod 32; bytes_seen := 0; bytes_needed := 1;
              lower_boundary := 128; upper_boundary := 191 |})
  else if (224 <=? b) && (b <=? 239) then
    (None, {| code_point := b mod 16; bytes_seen := 0; bytes_needed := 2;
              lower_boundary := if b =? 224 then 160 else 128;
              upper_boundary := if b =? 237 then 159 else 191 |})
  else if (240 <=? b) && (b <=? 244) then
    (None, {| code_point := b mod 8; bytes_seen := 0; bytes_needed := 3;
              lower_boundary := if b =? 240 then 144 else 128;
              upper_boundary := if b =? 244 then 143 else 191 |})
  else (Some 65533, utf8_init).

(** The decoder over the bytes that are left: an ill-formed sequence
    yields U+FFFD and the byte that broke it is read again. *)
Fixpoint utf8_decode (st : utf8_state) (bs : list Z) : list Z :=
  match bs with
  | [] => if bytes_needed st =? 0 then [] else [65533]
  | b :: rest =>
    if bytes_needed st =? 0 then
      option_list (utf8_lead b).1 ++ utf8_decode (utf8_lead b).2 rest
    else if (b <? lower_boundary st) || (upper_boundary st <? b) then
      65533 :: option_list (utf8_lead b).1 ++ utf8_decode (utf8_lead b).2 rest
    else
      let cp := code_point st * 64 + b mod 64 in
      if bytes_seen st + 1 =? bytes_needed st
      then cp :: utf8_decode utf8_init rest
      else utf8_decode {| code_point := cp; bytes_seen := bytes_seen st + 1;
                          bytes_needed := bytes_needed st;
                          lower_boundary := 128; upper_boundary := 191 |} rest
  end.

(** The UTF-16 code units of a scalar value. *)
Definition utf16_of_scalar (u : Z) : list Z :=
  if u <? 65536 then [u]
  else [55296 + (u - 65536) / 1024; 56320 + (u - 65536) mod 1024].

(** [new TextDecoder().decode(bytes)]: UTF-8, not fatal, and a leading
    U+FEFF is dropped (ignoreBOM is false). *)
Definition TextDecoder_decode (bytes : list byte) : jsstring :=
  let points := utf8_decode utf8_init (Z_of_byte <$> bytes) in
  let points := match points with
                | p :: rest => if p =? 65279 then rest else points
                | [] => points
                end in
  points ≫= utf16_of_scalar.

(** A scalar value: a code point that is not a surrogate. *)
Definition is_scalar (u : Z) : Prop :=
  0 <= u < 1114112 ∧ ¬ (55296 <= u <= 57343).

(** A string of code units without a lone surrogate. *)
Fixpoint well_formed (s : jsstring) : bool :=
  match s with
  | [] => true
  | c :: rest =>
    if is_high_surrogate c then
      match rest with
      | d :: rest' => is_low_surrogate d && well_formed rest'
      | [] => false
      end
    else if is_low_surrogate c then false
    else (0 <=? c) && (c <? 65536) && well_formed rest
  end.

(** ** btoa and atob *)

Definition b64_alphabet : string :=
  "ABCDEFGHIJKLMNOPQRSTUVWXYZabcdefghijklmnopqrstuvwxyz0123456789+/".

Definition b64_char (n : N) : ascii :=
  match String.get (N.to_nat n) b64_alphabet with
  | Some c => c
  | None => "="%char
  end.

Definition b64_index (c : ascii) : option N :=
  let n := N_of_ascii c in
  (if (65 <=? n) && (n <=? 90) then Some (n - 65)
   else if (97 <=? n) && (n <=? 122) then Some (n - 71)
   else if (48 <=? n) && (n <=? 57) then Some (n + 4)
   else if n =? 43 then Some 62
   else if n =? 47 then Some 63
   else None)%N.

(** Three bytes make four 6-bit groups; a last group of one or two bytes
    is filled with zero bits. *)
Fixpoint b64_sextets (bs : list N) : list N :=
  match bs with
  | b1 :: b2 :: b3 :: rest =>
    ([b1 / 4; (b1 mod 4) * 16 + b2 / 16; (b2 mod 16) * 4 + b3 / 64; b3 mod 64]
       ++ b64_sextets rest)%list
  | [b1; b2] => [b1 / 4; (b1 mod 4) * 16 + b2 / 16; (b2 mod 16) * 4]
  | [b1] => [b1 / 4; (b1 mod 4) * 16]
  | [] => []
  end%N.

Definition b64_padding (len : nat) : list ascii :=
  replicate ((3 - len mod 3) mod 3)%nat "="%char.

(** [btoa(s)] on a binary string: every character of [string] is a code
    unit below 256, so the call never throws. *)
Definition btoa (s : string) : string :=
  let bs := N_of_ascii <$> list_ascii_of_string s in
  string_of_list_ascii ((b64_char <$> b64_sextets bs) ++ b64_padding (length bs)).

Definition is_ascii_whitespace (c : ascii) : bool :=
  let n := N_of_ascii c in
  ((n =? 9) || (n =? 10) || (n =? 12) || (n =? 13) || (n =? 32))%N.

(** One or two trailing [=] are removed. *)
Definition strip_padding (data : list ascii) : list ascii :=
  match reverse data with
  | c1 :: r1 =>
    if Ascii.eqb c1 "=" then
      match r1 with
      | c2 :: r2 => if Ascii.eqb c2 "=" then reverse r2 else reverse r1
      | [] => []
      end
    else data
  | [] => data
  end.

(** Four 6-bit groups make three bytes; of a last group of two or three
    the spare low bits are dropped. *)
Fixpoint b64_bytes (ss : list N) : list N :=
  match ss with
  | s1 :: s2 :: s3 :: s4 :: rest =>
    let n := ((s1 * 64 + s2) * 64 + s3) * 64 + s4 in
    ([n / 65536; (n / 256) mod 256; n mod 256] ++ b64_bytes rest)%list
  | [s1; s2; s3] =>
    let n := ((s1 * 64 + s2) * 64 + s3) / 4 in
    [n / 256; n mod 256]
  | [s1; s2] => [(s1 * 64 + s2) / 16]
  | _ => []
  end%N.

(** [atob(data)], the forgiving base64 decoding of the platform; [None]
    when it throws. *)
Definition atob (data : string) : option string :=
  let data := filter (fun c => is_ascii_whitespace c = false) (list_ascii_of_string data) in
  let data := if decide (length data mod 4 = 0)%nat then strip_padding data else data in
  if decide (length data mod 4 = 1)%nat then None
  else
    sextets ← mapM b64_index data;
    Some (string_of_list_ascii (ascii_of_N <$> b64_bytes sextets)).

(** ** values/constants.ts *)

Module STORAGE_KEYS.
Definition SESSION_KEY : string := "ciphervault_derived_key".
Definition LOCK_TIMEOUT : string := "ciphervault_lock_timeout".
Definition THEME : string := "ciphervault_theme".
Definition PIN_HASH : string := "ciphervault_pin_hash".
Definition LAST_ACTIVITY : string := "ciphervault_last_activity".
Definition FAILED_ATTEMPTS : string := "ciphervault_failed_attempts".
Definition LAST_FAILED_TIME : string := "ciphervault_last_failed_time".
End STORAGE_KEYS.

Module SECURITY_VALUES.
Definition MAX_FAILED_ATTEMPTS : Z := 5.
Definition MAX_BACKOFF_SECONDS : Z := 300.
Definition DEFAULT_LOCK_TIMEOUT_MINS : Z := 5.
Definition CLIPBOARD_CLEAR_SECONDS : Z := 30.
End SECURITY_VALUES.

Module CRYPTO_VALUES.
Definition PBKDF2_ITERATIONS : Z := 310000.
Definition SALT_LENGTH : nat := 16.
Definition IV_LENGTH : nat := 12.
End CRYPTO_VALUES.

(** Build-time configuration read through [import.meta.env]. *)
Record Env : Type := {
  VITE_MAX_FAILED_ATTEMPTS : option Z;
  VITE_MAX_BACKOFF_SECONDS : option Z;
  VITE_EXTENSION_PIN_SALT : option string;
  VITE_SESSION_KEY_NAME : option string
}.

Definition default_env : Env :=
  {| VITE_MAX_FAILED_ATTEMPTS := None;
     VITE_MAX_BACKOFF_SECONDS := None;
     VITE_EXTENSION_PIN_SALT := None;
     VITE_SESSION_KEY_NAME := None |}.

(** [x || d] on an optional string of the environment. *)
Definition str_or (x : option string) (d : string) : string :=
  match x with
  | Some s => if String.eqb s "" then d else s
  | None => d
  end.

(** ** The two stores and the monad of asynchronous operations *)

(** [local] is chrome.storage.local (durable), [session] is
    chrome.storage.session (volatile).  [digests] is a ghost counter of the
    calls to crypto.subtle.digest, that is, of the PIN hashes computed. *)
Record World : Type := {
  local : gmap string jsval;
  session : gmap string jsval;
  digests : nat
}.

Definition Async (A : Type) : Type := World -> A * World.

Global Instance Async_ret : MRet Async := fun A x w => (x, w).
Global Instance Async_bind : MBind Async :=
  fun A B f m w => let '(a, w') := m w in f a w'.

Definition local_get (k : string) : Async (option jsval) :=
  fun w => (local w !! k, w).

(** [set] merges the given items over the stored ones. *)
Definition local_set (items : gmap string jsval) : Async unit :=
  fun w => (tt, {| local := items ∪ local w; session := session w;
                   digests := digests w |}).

Definition local_remove (keys : list string) : Async unit :=
  fun w => (tt, {| local := foldr delete (local w) keys; session := session w;
                   digests := digests w |}).

Definition session_get (k : string) : Async (option jsval) :=
  fun w => (session w !! k, w).

Definition session_set (items : gmap string jsval) : Async unit :=
  fun w => (tt, {| local := local w; session := items ∪ session w;
                   digests := digests w |}).

Definition session_remove (keys : list string) : Async unit :=
  fun w => (tt, {| local := local w; session := foldr delete (session w) keys;
                   digests := digests w |}).

Definition session_clear : Async unit :=
  fun w => (tt, {| local := local w; session := ∅; digests := digests w |}).

(** ** lib/crypto.ts: encoding utilities and the secret cipher *)

Definition arrayBufferToBase64 (buffer : list byte) : string :=
  let binary :=
    foldl (fun binary b => binary +:+ String (ascii_of_byte b) EmptyString)
          EmptyString buffer in
  btoa binary.

(** [s.charCodeAt(i)] stored into a Uint8Array cell. *)
Definition charCodeAt_byte (i : nat) (s : string) : byte :=
  match String.get i s with
  | Some c => byte_of_ascii c
  | None => x00
  end.

Definition base64ToArrayBuffer (base64 : string) : option (list byte) :=
  binary_string ← atob base64;
  let len := String.length binary_string in
  let bytes := replicate len x00 in
  Some (foldl (fun bytes i => <[i := charCodeAt_byte i binary_string]> bytes)
              bytes (seq 0 len)).

(** What a call may throw: [atob] an InvalidCharacterError, the AES-GCM
    decryption an OperationError. *)
Inductive Exception : Type :=
  | InvalidCharacterError
  | OperationError.

Inductive Result (A : Type) : Type :=
  | Returns (a : A)
  | Throws (e : Exception).
Arguments Returns {A} a.
Arguments Throws {A} e.

(** The result of [encryptData]. *)
Record Encrypted : Type := { encrypted : string; iv : string }.

Section Cipher.
(** AES-GCM of the platform: [crypto.subtle.encrypt] and
    [crypto.subtle.decrypt] with the algorithm [AES-GCM] and the given
    nonce, the latter [None] when it rejects. *)
Context {CryptoKey : Type}.
Context (AES_GCM_encrypt : CryptoKey -> list byte -> list byte -> list byte).
Context (AES_GCM_decrypt : CryptoKey -> list byte -> list byte -> option (list byte)).

(** [nonce] is what [crypto.getRandomValues(new Uint8Array(IV_LENGTH))]
    returns. *)
Definition encryptData (key : CryptoKey) (nonce : list byte) (plaintext : jsstring)
  : Encrypted :=
  let ciphertext := AES_GCM_encrypt key nonce (TextEncoder_encode plaintext) in
  {| encrypted := arrayBufferToBase64 ciphertext;
     iv := arrayBufferToBase64 nonce |}.

Definition decryptData (key : CryptoKey) (encryptedBase64 ivBase64 : string)
  : Result jsstring :=
  match base64ToArrayBuffer encryptedBase64 with
  | None => Throws InvalidCharacterError
  | Some ciphertext =>
    match base64ToArrayBuffer ivBase64 with
    | None => Throws InvalidCharacterError
    | Some nonce =>
      match AES_GCM_decrypt key nonce ciphertext with
      | None => Throws OperationError
      | Some decrypted => Returns (TextDecoder_decode decrypted)
      end
    end
  end.
End Cipher.

(** *** Session key storage (lib/crypto.ts) *)

(** What a promise settles to: the value it resolves to, or a rejection. *)
Inductive Settled (A : Type) : Type :=
  | Fulfilled (a : A)
  | Rejected.
Arguments Fulfilled {A} a.
Arguments Rejected {A}.

(** What the key functions may throw: the InvalidCharacterError of [atob],
    and the InvalidAccessError with which [crypto.subtle.exportKey]
    rejects a key that is not extractable. *)
Inductive DOMException : Type :=
  | InvalidCharacter
  | InvalidAccess.

Section SessionKey.
Context (env : Env).
(** [crypto.subtle.exportKey("jwk", key)] followed by [JSON.stringify]:
    the exception when the export is refused, as it is for a key that is
    not extractable. *)
Context {CryptoKey : Type}.
Context (exportKey_jwk : CryptoKey -> DOMException + string).
(** [JSON.parse] of the stored text followed by the call of
    [crypto.subtle.importKey]: [None] when [JSON.parse] throws, and
    otherwise what [importKey] returns.  [getKeyFromSession] returns that
    without awaiting it inside its [try]: a rejection of the import is
    not caught there but reaches the caller, so that the handlers take
    [Imported] to be a settled promise ([Settled]). *)
Context {Imported : Type}.
Context (importKey_jwk : string -> option Imported).

Definition SESSION_KEY_NAME : string :=
  str_or (VITE_SESSION_KEY_NAME env) STORAGE_KEYS.SESSION_KEY.

(** The result is the exception of the export, when it is refused:
    nothing is stored then. *)
Definition storeKeyInSession (key : CryptoKey) : Async (DOMException + unit) :=
  match exportKey_jwk key with
  | inl e => mret (inl e)
  | inr exported =>
    session_set {[ SESSION_KEY_NAME := VStr exported ]};;
    mret (inr tt)
  end.

(** The entry is only ever written with a string ([storeKeyInSession]). *)
Definition getKeyFromSession : Async (option Imported) :=
  result ← session_get SESSION_KEY_NAME;
  if truthy result then
    match result with
    | Some (VStr keyJson) => mret (importKey_jwk keyJson)
    | _ => mret None
    end
  else mret None.

Definition clearKeyFromSession : Async unit := session_remove [SESSION_KEY_NAME].

Definition secureLogout : Async unit :=
  clearKeyFromSession;;
  session_clear.
End SessionKey.

(** ** lib/security.ts *)

Definition PIN_KEY : string := STORAGE_KEYS.PIN_HASH.
Definition LOCK_TIMEOUT_KEY : string := STORAGE_KEYS.LOCK_TIMEOUT.
Definition LAST_ACTIVITY_KEY : string := STORAGE_KEYS.LAST_ACTIVITY.
Definition FAILED_ATTEMPTS_KEY : string := STORAGE_KEYS.FAILED_ATTEMPTS.
Definition LAST_FAILED_TIME_KEY : string := STORAGE_KEYS.LAST_FAILED_TIME.

(** [b.toString(16).padStart(2, '0')] *)
Definition hex_digit (n : N) : ascii :=
  match String.get (N.to_nat n) "0123456789abcdef" with
  | Some c => c
  | None => "0"%char
  end.

Definition hex_of_byte (b : byte) : string :=
  String (hex_digit (Byte.to_N b / 16)) (String (hex_digit (Byte.to_N b mod 16)) "").

Definition hex_of_bytes (bs : list byte) : string :=
  foldr (fun b acc => hex_of_byte b +:+ acc) "" bs.

(** The result of [isBackoffActive]. *)
Record Backoff : Type := { active : bool; remainingMs : Z }.

Section Security.
Context (env : Env).
(** [crypto.subtle.digest('SHA-256', data)], a function of the platform. *)
Context (digest_SHA256 : list byte -> list byte).

Definition MAX_FAILED_ATTEMPTS : Z :=
  env_or (VITE_MAX_FAILED_ATTEMPTS env) SECURITY_VALUES.MAX_FAILED_ATTEMPTS.
Definition MAX_BACKOFF_SECONDS : Z :=
  env_or (VITE_MAX_BACKOFF_SECONDS env) SECURITY_VALUES.MAX_BACKOFF_SECONDS.

(** *** Exponential backoff *)

Definition getBackoffDelay : Async Z :=
  attempts ← local_get FAILED_ATTEMPTS_KEY;
  let currentAttempts := num_or attempts 0 in
  if currentAttempts =? 0 then mret 0
  else
    let delaySeconds := Z.min (2 ^ currentAttempts) MAX_BACKOFF_SECONDS in
    mret (delaySeconds * 1000).

Definition isBackoffActive (now : Z) : Async Backoff :=
  attempts ← local_get FAILED_ATTEMPTS_KEY;
  lastFailed ← local_get LAST_FAILED_TIME_KEY;
  let currentAttempts := num_or attempts 0 in
  let lastFailedTime := num_or lastFailed 0 in
  if currentAttempts =? 0 then mret {| active := false; remainingMs := 0 |}
  else
    let delayMs := Z.min (2 ^ currentAttempts) MAX_BACKOFF_SECONDS * 1000 in
    let unlockTime := lastFailedTime + delayMs in
    if now <? unlockTime
    then mret {| active := true; remainingMs := unlockTime - now |}
    else mret {| active := false; remainingMs := 0 |}.

(** *** PIN lock *)

(** The value of [hashPin(pin)]: the hexadecimal SHA-256 digest of the PIN
    followed by the salt. *)
Definition pinDigest (pin : jsstring) : string :=
  let pinSalt := str_or (VITE_EXTENSION_PIN_SALT env) "ciphervault_salt" in
  let data := TextEncoder_encode (pin ++ js_of_string pinSalt) in
  let hash := digest_SHA256 data in
  hex_of_bytes hash.

Definition hashPin (pin : jsstring) : Async string := fun w =>
  (pinDigest pin,
   {| local := local w; session := session w; digests := S (digests w) |}).

Definition setPin (pin : jsstring) : Async unit :=
  hash ← hashPin pin;
  local_set {[ PIN_KEY := VStr hash ]}.

Definition removePin : Async unit := local_remove [PIN_KEY].

Definition hasPin : Async bool :=
  stored ← local_get PIN_KEY;
  mret (truthy stored).

(** *** Auto-lock timer *)

Definition setLockTimeout (minutes : Z) : Async unit :=
  local_set {[ LOCK_TIMEOUT_KEY := VNum minutes ]}.

Definition getLockTimeout : Async Z :=
  result ← local_get LOCK_TIMEOUT_KEY;
  mret (num_or result SECURITY_VALUES.DEFAULT_LOCK_TIMEOUT_MINS).

Definition updateLastActivity (now : Z) : Async unit :=
  session_set {[ LAST_ACTIVITY_KEY := VNum now ]}.

Definition isSessionExpired (now : Z) : Async bool :=
  activity ← session_get LAST_ACTIVITY_KEY;
  timeout ← getLockTimeout;
  let lastActivity := num_or activity 0 in
  let expiresAt := lastActivity + timeout * 60 * 1000 in
  mret (expiresAt <? now).

(** *** Clear all security data *)

Definition clearSecurityData : Async unit :=
  local_remove [PIN_KEY; FAILED_ATTEMPTS_KEY];;
  session_clear.

(** [now] is what [Date.now()] returns in the branch that is taken. *)
Definition verifyPin (now : Z) (pin : jsstring) : Async bool :=
  stored ← local_get PIN_KEY;
  hash ← hashPin pin;
  if decide (stored = Some (VStr hash)) then
    local_set {[ FAILED_ATTEMPTS_KEY := VNum 0 ]};;
    updateLastActivity now;;
    mret true
  else
    attempts ← local_get FAILED_ATTEMPTS_KEY;
    let currentAttempts := num_or attempts 0 in
    let newAttempts := currentAttempts + 1 in
    local_set (<[ FAILED_ATTEMPTS_KEY := VNum newAttempts ]>
                 {[ LAST_FAILED_TIME_KEY := VNum now ]});;
    (if MAX_FAILED_ATTEMPTS <=? newAttempts then clearSecurityData else mret tt);;
    mret false.

End Security.

(** ** The popup: PIN unlock handler (App.tsx) *)

Inductive Screen : Type :=
  | loading | login | pin_setup | pin_unlock | main | settings.

(** The part of the component state that [handlePinUnlock] touches.
    [loads] counts the calls to [loadSecrets()], which only reads the
    session key and the network. *)
Record UI : Type := {
  screen : Screen;
  error : string;
  backoffRemaining : Z;
  pin : jsstring;
  loads : nat
}.

Definition setScreen (s : Screen) (ui : UI) : UI :=
  {| screen := s; error := error ui; backoffRemaining := backoffRemaining ui;
     pin := pin ui; loads := loads ui |}.
Definition setError (e : string) (ui : UI) : UI :=
  {| screen := screen ui; error := e; backoffRemaining := backoffRemaining ui;
     pin := pin ui; loads := loads ui |}.
Definition setBackoffRemaining (r : Z) (ui : UI) : UI :=
  {| screen := screen ui; error := error ui; backoffRemaining := r;
     pin := pin ui; loads := loads ui |}.
Definition setInputPin (p : jsstring) (ui : UI) : UI :=
  {| screen := screen ui; error := error ui; backoffRemaining := backoffRemaining ui;
     pin := p; loads := loads ui |}.
Definition loadSecrets (ui : UI) : UI :=
  {| screen := screen ui; error := error ui; backoffRemaining := backoffRemaining ui;
     pin := pin ui; loads := S (loads ui) |}.

(** [Math.ceil(r / 1000)] on an integer [r]. *)
Definition ceil_div_1000 (r : Z) : Z := (r + 999) / 1000.

Section Popup.
Context (env : Env).
Context (digest_SHA256 : list byte -> list byte).
(** [JSON.parse] followed by [crypto.subtle.importKey]: [None] when the
    stored text does not parse, and otherwise what the promise of the
    import settles to. *)
Context {CryptoKey : Type} (importKey_jwk : string -> option (Settled CryptoKey)).

(** [now] is the clock reading of the backoff check, [now'] the later
    one of [verifyPin].  When the import of the session key rejects, the
    [await] of [getKeyFromSession] throws and the handler ends there: no
    setter is called, the component state stays as it is. *)
Definition handlePinUnlock (now now' : Z) (ui : UI) : Async UI :=
  backoff ← isBackoffActive env now;
  if active backoff then
    mret (setError ("Brute-force protection: Please wait "
                      +:+ pretty (ceil_div_1000 (remainingMs backoff)) +:+ "s")
            (setBackoffRemaining (remainingMs backoff) ui))
  else
    valid ← verifyPin env digest_SHA256 now' (pin ui);
    if valid : bool then
      key ← getKeyFromSession env importKey_jwk;
      match key with
      | Some (Fulfilled _) => mret (setScreen main (loadSecrets ui))
      | Some Rejected => mret ui
      | None =>
        mret (setScreen login (setError "Session expired. Please login again." ui))
      end
    else
      waitTime ← getBackoffDelay env;
      if 0 <? waitTime then
        mret (setInputPin []
                (setError ("Invalid PIN. Backoff active: "
                             +:+ pretty (waitTime / 1000) +:+ "s")
                   (setBackoffRemaining waitTime ui)))
      else
        mret (setInputPin []
                (setError "Invalid PIN. 5 failed attempts will clear data." ui)).

End Popup.

(** ** The background service worker: the master key hash *)

Definition storeMasterKeyHash (keyHash : string) : Async unit :=
  session_set {[ "masterKeyHash" := VStr keyHash ]}.

Definition getMasterKeyHash : Async (option string) :=
  result ← session_get "masterKeyHash";
  if truthy result then
    match result with
    | Some (VStr keyHash) => mret (Some keyHash)
    | _ => mret None
    end
  else mret None.

(** ** The failed-attempt state and the operations on the stores *)

(** FailedAttemptState as the code reads it: an absent entry counts as 0. *)
Definition count (w : World) : Z := num_or (local w !! FAILED_ATTEMPTS_KEY) 0.
Definition lastFailureTimestamp (w : World) : Z :=
  num_or (local w !! LAST_FAILED_TIME_KEY) 0.

(** ActivityState as the code reads it. *)
Definition lastActivity (w : World) : Z := num_or (session w !! LAST_ACTIVITY_KEY) 0.

(** The entries that the code reads as numbers hold numbers, as the
    TypeScript casts [as number] declare. *)
Definition numeric (v : option jsval) : Prop :=
  match v with
  | Some (VStr _) => False
  | _ => True
  end.

Definition typed (w : World) : Prop :=
  numeric (local w !! FAILED_ATTEMPTS_KEY)
  ∧ numeric (local w !! LAST_FAILED_TIME_KEY)
  ∧ numeric (local w !! LOCK_TIMEOUT_KEY)
  ∧ numeric (session w !! LAST_ACTIVITY_KEY).

(** The operations of lib/security.ts, lib/crypto.ts and the background
    worker on the stores. *)
Inductive Op : Type :=
  | OpGetBackoffDelay
  | OpIsBackoffActive (now : Z)
  | OpSetPin (pin : jsstring)
  | OpVerifyPin (now : Z) (pin : jsstring)
  | OpHasPin
  | OpRemovePin
  | OpSetLockTimeout (minutes : Z)
  | OpGetLockTimeout
  | OpUpdateLastActivity (now : Z)
  | OpIsSessionExpired (now : Z)
  | OpClearSecurityData
  | OpStoreKeyInSession (jwk : string)
  | OpGetKeyFromSession
  | OpClearKeyFromSession
  | OpSecureLogout
  | OpStoreMasterKeyHash (keyHash : string)
  | OpGetMasterKeyHash.

Section Operations.
Context (env : Env).
Context (digest_SHA256 : list byte -> list byte).

(** The stores after an operation; a key stands for its JWK text. *)
Definition run (op : Op) (w : World) : World :=
  match op with
  | OpGetBackoffDelay => (getBackoffDelay env w).2
  | OpIsBackoffActive now => (isBackoffActive env now w).2
  | OpSetPin pin => (setPin env digest_SHA256 pin w).2
  | OpVerifyPin now pin => (verifyPin env digest_SHA256 now pin w).2
  | OpHasPin => (hasPin w).2
  | OpRemovePin => (removePin w).2
  | OpSetLockTimeout minutes => (setLockTimeout minutes w).2
  | OpGetLockTimeout => (getLockTimeout w).2
  | OpUpdateLastActivity now => (updateLastActivity now w).2
  | OpIsSessionExpired now => (isSessionExpired now w).2
  | OpClearSecurityData => (clearSecurityData w).2
  | OpStoreKeyInSession jwk => (storeKeyInSession env (fun k : string => inr k) jwk w).2
  | OpGetKeyFromSession => (getKeyFromSession env (fun k : string => Some k) w).2
  | OpClearKeyFromSession => (clearKeyFromSession env w).2
  | OpSecureLogout => (secureLogout env w).2
  | OpStoreMasterKeyHash keyHash => (storeMasterKeyHash keyHash w).2
  | OpGetMasterKeyHash => (getMasterKeyHash w).2
  end.

(** The stores after a series of PIN attempts, each with its clock
    reading. *)
Fixpoint attempts (calls : list (Z * jsstring)) (w : World) : World :=
  match calls with
  | [] => w
  | (now, pin) :: calls' => attempts calls' (verifyPin env digest_SHA256 now pin w).2
  end.

(** The operation is a PIN verification that succeeds. *)
Definition verifies (op : Op) (w : World) : Prop :=
  ∃ now pin, op = OpVerifyPin now pin
             ∧ (verifyPin env digest_SHA256 now pin w).1 = true.

(** The operation runs [clearSecurityData]: directly, or as the failed
    verification that reaches the maximum. *)
Definition clears (op : Op) (w : World) : Prop :=
  op = OpClearSecurityData
  ∨ ∃ now pin, op = OpVerifyPin now pin
               ∧ (verifyPin env digest_SHA256 now pin w).1 = false
               ∧ MAX_FAILED_ATTEMPTS env <= count w + 1.
End Operations.

(** ** Phishing detection (lib/security.ts) *)

(** [s.toLowerCase()] on the ASCII letters; a hostname that the URL parser
    returns is ASCII. *)
Definition lower_ascii (c : ascii) : ascii :=
  let n := N_of_ascii c in
  if ((65 <=? n) && (n <=? 90))%N then ascii_of_N (n + 32) else c.

Fixpoint toLowerCase (s : string) : string :=
  match s with
  | EmptyString => EmptyString
  | String c s' => String (lower_ascii c) (toLowerCase s')
  end.

(** A JavaScript array of numbers written at an index: inside the array
    the cell is replaced, at its end the array grows by one.  A write
    further out would leave holes; it is [None] here, like every read of a
    missing cell, and [levenshteinDistance] is shown never to do either. *)
Definition arr_set {A : Type} (i : nat) (v : A) (l : list A) : option (list A) :=
  if (i <? length l)%nat then Some (<[i := v]> l)
  else if (i =? length l)%nat then Some (l ++ [v])%list
  else None.

(** [matrix[i][j]] *)
Definition mat_get (i j : nat) (matrix : list (list Z)) : option Z :=
  row ← matrix !! i; row !! j.

(** [matrix[i][j] = v] *)
Definition mat_set (i j : nat) (v : Z) (matrix : list (list Z)) : option (list (list Z)) :=
  row ← matrix !! i;
  row' ← arr_set j v row;
  arr_set i row' matrix.

(** [for (let i = from; i < from + count; i++) body] on a state. *)
Definition for_loop {S : Type} (from count : nat) (body : nat -> S -> option S) (s : S)
  : option S :=
  foldl (fun acc i => acc ≫= body i) (Some s) (seq from count).

(** [s.charAt(i)]: [None] stands for the empty string returned out of range. *)
Definition charAt (i : nat) (s : string) : option ascii := String.get i s.

Definition levenshteinDistance (a b : string) : option Z :=
  matrix ← for_loop 0 (S (String.length b))
              (fun i matrix => arr_set i [Z.of_nat i] matrix) [];
  matrix ← for_loop 0 (S (String.length a))
              (fun j matrix => mat_set 0 j (Z.of_nat j) matrix) matrix;
  matrix ← for_loop 1 (String.length b) (fun i matrix =>
              for_loop 1 (String.length a) (fun j matrix =>
                if decide (charAt (i - 1) b = charAt (j - 1) a) then
                  d ← mat_get (i - 1) (j - 1) matrix;
                  mat_set i j d matrix
                else
                  d ← mat_get (i - 1) (j - 1) matrix;
                  l ← mat_get i (j - 1) matrix;
                  u ← mat_get (i - 1) j matrix;
                  mat_set i j (Z.min (d + 1) (Z.min (l + 1) (u + 1))) matrix)
              matrix) matrix;
  mat_get (String.length b) (String.length a) matrix.

(** The classic Levenshtein distance, by its textbook recursion: the least
    of a deletion, an insertion and a substitution (free on equal
    characters). *)
Fixpoint lev (a : list ascii) : list ascii -> nat :=
  fix lev_a (b : list ascii) : nat :=
    match a, b with
    | [], _ => length b
    | _, [] => length a
    | x :: a', y :: b' =>
      Nat.min (Nat.min (lev a' b + 1) (lev_a b' + 1))
              (lev a' b' + (if decide (x = y) then 0 else 1))
    end%nat.

(** Edit scripts: [script n a b] when [n] single-character insertions,
    deletions and substitutions, applied left to right, turn [a] into [b]. *)
Inductive script : nat -> list ascii -> list ascii -> Prop :=
  | script_nil : script 0 [] []
  | script_keep x a b n : script n a b -> script n (x :: a) (x :: b)
  | script_subst x y a b n : script n a b -> script (S n) (x :: a) (y :: b)
  | script_delete x a b n : script n a b -> script (S n) (x :: a) b
  | script_insert y a b n : script n a b -> script (S n) a (y :: b).

(** The invariant of the dynamic program, for the words [a] and [b]. *)
Section MatrixInvariant.
Variables a b : string.

(** The cell at row [i], column [j]: the distance between the first [i]
    characters of [b] and the first [j] characters of [a]. *)
Definition cell (i j : nat) : nat :=
  lev (reverse (take i (list_ascii_of_string b)))
      (reverse (take j (list_ascii_of_string a))).

(** Row [i] filled up to column [k]. *)
Definition prow (i k : nat) : list Z :=
  (fun j => Z.of_nat (cell i j)) <$> seq 0 (S k).

(** The matrix when the rows above [i] are complete, row [i] is filled up
    to column [j] and the rows below hold their first cell only. *)
Definition fill (i j i' : nat) : nat :=
  if (i' <? i)%nat then String.length a
  else if (i' =? i)%nat then j
  else 0%nat.

Definition mat (i j : nat) : list (list Z) :=
  (fun i' => prow i' (fill i j i')) <$> seq 0 (S (String.length b)).

End MatrixInvariant.

(** ** A reference model of the URL parser

    [URL_hostname_model url] models [new URL(url).hostname] for absolute
    URLs [scheme:rest]: an authority [//userinfo@host:port] is read for the
    special schemes (whatever the number of slashes) and, after [//], for
    the others; a URL without authority, such as [about:blank], has the
    empty hostname; a string without a scheme makes the constructor
    throw.  The model stops there: it assumes a host made of letters,
    digits, hyphens and dots, not a number, reads a file URL without a
    host, and does not percent-decode, apply IDNA, read numeric or
    bracketed addresses, or strip spaces around the URL.  It is used on
    such URLs only; [checkDomainMatch] and its general properties take the
    parser as a parameter. *)

Definition is_alpha (c : ascii) : bool :=
  let n := N_of_ascii c in
  (((65 <=? n) && (n <=? 90)) || ((97 <=? n) && (n <=? 122)))%N.

Definition is_digit (c : ascii) : bool :=
  let n := N_of_ascii c in ((48 <=? n) && (n <=? 57))%N.

Definition is_scheme_char (c : ascii) : bool :=
  is_alpha c || is_digit c || Ascii.eqb c "+" || Ascii.eqb c "-" || Ascii.eqb c ".".

Definition is_slash (c : ascii) : bool := Ascii.eqb c "/" || Ascii.eqb c "\".

(** The longest prefix whose characters all satisfy [p], and the rest. *)
Fixpoint span (p : ascii -> bool) (l : list ascii) : list ascii * list ascii :=
  match l with
  | [] => ([], [])
  | c :: l' =>
    if p c then let '(pre, post) := span p l' in (c :: pre, post)
    else ([], l)
  end.

(** The text after the last occurrence of [c], or all of it. *)
Fixpoint after_last (c : ascii) (l : list ascii) : list ascii :=
  match l with
  | [] => []
  | d :: l' =>
    if Ascii.eqb d c && negb (existsb (Ascii.eqb c) l') then l'
    else if existsb (Ascii.eqb c) l then after_last c l'
    else l
  end.

(** The text before the last occurrence of [c], or all of it. *)
Fixpoint before_last (c : ascii) (l : list ascii) : list ascii :=
  match l with
  | [] => []
  | d :: l' =>
    if existsb (Ascii.eqb c) l' then d :: before_last c l'
    else if Ascii.eqb d c then []
    else l
  end.

Definition parse_scheme (l : list ascii) : option (string * list ascii) :=
  match l with
  | c :: _ =>
    if is_alpha c then
      match span is_scheme_char l with
      | (scheme, colon :: rest) =>
        if Ascii.eqb colon ":"
        then Some (toLowerCase (string_of_list_ascii scheme), rest)
        else None
      | _ => None
      end
    else None
  | [] => None
  end.

Definition is_special (scheme : string) : bool :=
  bool_decide (scheme ∈ ["http"; "https"; "ws"; "wss"; "ftp"]).

(** The host of [userinfo@host:port]; a port must be decimal. *)
Definition host_of_authority (special : bool) (authority : list ascii)
  : option string :=
  let hostport := after_last "@" authority in
  let host := before_last ":" hostport in
  let port := if existsb (Ascii.eqb ":") hostport then after_last ":" hostport else [] in
  if negb (forallb is_digit port) then None
  else
    match host with
    | [] => if special then None else Some ""
    | _ => Some (if special then toLowerCase (string_of_list_ascii host)
                 else string_of_list_ascii host)
    end.

Definition URL_hostname_model (url : string) : option string :=
  match parse_scheme (list_ascii_of_string url) with
  | None => None
  | Some (scheme, rest) =>
    if is_special scheme then
      let rest := (span is_slash rest).2 in
      let authority :=
        (span (fun c => negb (is_slash c || Ascii.eqb c "?" || Ascii.eqb c "#")) rest).1 in
      host_of_authority true authority
    else if String.eqb scheme "file" then Some ""
    else
      match rest with
      | "/"%char :: "/"%char :: rest =>
        let authority :=
          (span (fun c => negb (Ascii.eqb c "/" || Ascii.eqb c "?" || Ascii.eqb c "#"))
                rest).1 in
        host_of_authority false authority
      | _ => Some ""
      end
  end.

(** The result of [checkDomainMatch]. *)
Record DomainMatch : Type := { isMatch : bool; warning : option string }.

(** The double quote of the warning text. *)
Definition dquote : string := String "034"%char EmptyString.

(** The warning of the template literal; its warning sign is kept as its
    UTF-8 bytes. *)
Definition phishing_warning (currentDomain storedDomain : string) : string :=
  "⚠️ Possible phishing! Domain " +:+ dquote +:+ currentDomain +:+ dquote
    +:+ " looks similar to stored " +:+ dquote +:+ storedDomain +:+ dquote.

Section Matcher.
(** [new URL(url).hostname] of the platform, on whatever type the page and
    stored URLs come in; [None] when the constructor throws. *)
Context {Url : Type} (URL_hostname : Url -> option string).

Definition extractDomain (url : Url) : string :=
  match URL_hostname url with
  | Some hostname => toLowerCase hostname
  | None => ""
  end.

Definition checkDomainMatch (currentUrl storedUrl : Url) : DomainMatch :=
  let currentDomain := extractDomain currentUrl in
  let storedDomain := extractDomain storedUrl in
  if String.eqb currentDomain "" || String.eqb storedDomain "" then
    {| isMatch := false; warning := Some "Invalid URL" |}
  else if String.eqb currentDomain storedDomain then
    {| isMatch := true; warning := None |}
  else
    let distance := levenshteinDistance currentDomain storedDomain in
    if match distance with
       | Some d => (d <=? 2) && (0 <? d)
       | None => false
       end
    then {| isMatch := false;
            warning := Some (phishing_warning currentDomain storedDomain) |}
    else {| isMatch := false; warning := Some "Domain mismatch" |}.
End Matcher.

(** ** Sample states *)

(** A cipher to run the examples with: the ciphertext is the plaintext
    behind the key and the nonce, which the decryption checks. *)
Definition sample_encrypt (key nonce plaintext : list byte) : list byte :=
  key ++ nonce ++ plaintext.

Definition sample_decrypt (key nonce ciphertext : list byte) : option (list byte) :=
  let header := (key ++ nonce)%list in
  if decide (take (length header) ciphertext = header)
  then Some (drop (length header) ciphertext)
  else None.

(** A digest function to run the examples with: any function will do. *)
Definition sample_digest (data : list byte) : list byte := data.

(** A locked vault (PIN 1234) after three failures, the last one at time 1000. *)
Definition w_locked : World :=
  {| local := {[ PIN_KEY := VStr (pinDigest default_env sample_digest [49; 50; 51; 52]);
                 FAILED_ATTEMPTS_KEY := VNum 3;
                 LAST_FAILED_TIME_KEY := VNum 1000 ]};
     session := {[ LAST_ACTIVITY_KEY := VNum 500 ]};
     digests := 0 |}.

(** One failure away from the default maximum, with a cached session key. *)
Definition w_last_chance : World :=
  {| local := {[ PIN_KEY := VStr (pinDigest default_env sample_digest [49; 50; 51; 52]);
                 FAILED_ATTEMPTS_KEY := VNum 4;
                 LAST_FAILED_TIME_KEY := VNum 1000 ]};
     session := {[ STORAGE_KEYS.SESSION_KEY := VStr "{}";
                   LAST_ACTIVITY_KEY := VNum 500 ]};
     digests := 0 |}.

(** No PIN configured, no failure recorded. *)
Definition w_fresh : World :=
  {| local := ∅; session := {[ LAST_ACTIVITY_KEY := VNum 1000000 ]}; digests := 0 |}.

Definition ui_unlock : UI :=
  {| screen := pin_unlock; error := ""; backoffRemaining := 0;
     pin := [49; 50; 51; 52]; loads := 0 |}.

(** * The rest of the extension *)

(** ** Secure clipboard (lib/security.ts) *)

(** The system clipboard, and the callbacks that [copyToClipboard] has
    scheduled with [setTimeout] and that have not run yet: each with the
    time from which it is due and the text it captured, in the order in
    which they will run. *)
Record Clipboard : Type := {
  content : jsstring;
  timers : list (Z * jsstring)
}.

(** The delay that [setTimeout] applies: its argument converted to a
    32-bit signed integer, and 0 when that is negative. *)
Definition ToInt32 (x : Z) : Z := (x + 2 ^ 31) mod 2 ^ 32 - 2 ^ 31.

Definition timer_delay (ms : Z) : Z := Z.max 0 (ToInt32 ms).

(** A new callback runs after those that are due no later than it is. *)
Fixpoint setTimeout (due : Z) (text : jsstring) (queue : list (Z * jsstring))
  : list (Z * jsstring) :=
  match queue with
  | [] => [(due, text)]
  | (due', text') :: queue' =>
    if due <? due' then (due, text) :: queue
    else (due', text') :: setTimeout due text queue'
  end.

(** [navigator.clipboard.writeText(text)]; the promise rejects, and
    nothing is written, when the document may not write. *)
Definition writeText (granted : bool) (text : jsstring) (c : Clipboard) : Clipboard :=
  if granted then {| content := text; timers := timers c |} else c.

(** The write is not awaited: the callback is scheduled whether or not
    the write succeeds. *)
Definition copyToClipboard (granted : bool) (now : Z) (text : jsstring)
    (clearAfterSeconds : Z) (c : Clipboard) : Clipboard :=
  let c' := writeText granted text c in
  {| content := content c';
     timers := setTimeout (now + timer_delay (clearAfterSeconds * 1000)) text
                 (timers c') |}.

(** The scheduled callback.  [readable] tells whether
    [navigator.clipboard.readText()] resolves; a rejection of either call
    is caught and dropped. *)
Definition clearIfUnchanged (readable granted : bool) (text : jsstring)
    (c : Clipboard) : Clipboard :=
  if readable then
    if decide (content c = text) then writeText granted [] c else c
  else c.

(** The event loop at time [now]: the callbacks that are due run, in
    order, and leave the queue.  They are run one after the other: since
    all they ever write is the empty text, the clipboard they leave does
    not depend on how their reads and writes interleave. *)
Definition runTimers (readable granted : bool) (now : Z) (c : Clipboard) : Clipboard :=
  foldl (fun c timer => clearIfUnchanged readable granted timer.2 c)
        {| content := content c;
           timers := filter (fun timer => ¬ timer.1 ≤ now) (timers c) |}
        (filter (fun timer => timer.1 ≤ now) (timers c)).

(** What happens to the clipboard: a copy by the extension, a run of the
    event loop, or a copy made elsewhere by the user. *)
Inductive ClipboardEvent : Type :=
  | Copy (now : Z) (text : jsstring) (clearAfterSeconds : Z)
  | Tick (now : Z)
  | UserCopy (text : jsstring).

(** The events with every clipboard call permitted. *)
Definition clipboardStep (c : Clipboard) (e : ClipboardEvent) : Clipboard :=
  match e with
  | Copy now text clearAfterSeconds => copyToClipboard true now text clearAfterSeconds c
  | Tick now => runTimers true true now c
  | UserCopy text => {| content := text; timers := timers c |}
  end.

(** ** Key derivation and the login flow (lib/crypto.ts) *)

(** A CryptoKey: its key material and its [extractable] attribute. *)
Record CryptoKey (Material : Type) : Type := {
  material : Material;
  extractable : bool
}.
Arguments material {Material} _.
Arguments extractable {Material} _.

(** The legacy [code] attribute of a DOMException. *)
Definition DOMException_code (e : DOMException) : Z :=
  match e with
  | InvalidCharacter => 5
  | InvalidAccess => 15
  end.

Section KeyDerivation.
Context (env : Env).
(** [import.meta.env.VITE_EXTENSION_PBKDF2_ITERATIONS] as a number. *)
Context (VITE_EXTENSION_PBKDF2_ITERATIONS : option Z).
(** PBKDF2 with SHA-256 of the platform, from the password bytes, the salt
    and the iteration count to the material of a 256-bit AES-GCM key; and
    [JSON.stringify] of the JWK form of such a material. *)
Context {Material : Type}.
Context (PBKDF2_SHA256 : list byte -> list byte -> Z -> Material).
Context (JSON_stringify_jwk : Material -> string).

(** The derived key is requested with [extractable] false. *)
Definition deriveKey (password : jsstring) (salt : list byte) : CryptoKey Material :=
  {| material :=
       PBKDF2_SHA256 (TextEncoder_encode password) salt
         (env_or VITE_EXTENSION_PBKDF2_ITERATIONS CRYPTO_VALUES.PBKDF2_ITERATIONS);
     extractable := false |}.

(** [crypto.subtle.exportKey("jwk", key)] followed by [JSON.stringify]. *)
Definition exportKey_jwk (key : CryptoKey Material) : DOMException + string :=
  if extractable key then inr (JSON_stringify_jwk (material key))
  else inl InvalidAccess.

Definition initializeUserKey (masterPassword : jsstring) (saltBase64 : string)
  : Async (DOMException + CryptoKey Material) :=
  match base64ToArrayBuffer saltBase64 with
  | None => mret (inl InvalidCharacter)
  | Some salt =>
    let key := deriveKey masterPassword salt in
    stored ← storeKeyInSession env exportKey_jwk key;
    match stored with
    | inl e => mret (inl e)
    | inr _ => mret (inr key)
    end
  end.
End KeyDerivation.

(** ** The popup: the other handlers (App.tsx) *)

(** The component state beside [UI]. *)
Record App : Type := {
  ui : UI;
  password : jsstring;
  masterPassword : jsstring;
  newPin : jsstring;
  confirmPin : jsstring;
  isLoading : bool;
  lockTimeout : Z
}.

Definition withUI (f : UI -> UI) (app : App) : App :=
  {| ui := f (ui app); password := password app;
     masterPassword := masterPassword app; newPin := newPin app;
     confirmPin := confirmPin app; isLoading := isLoading app;
     lockTimeout := lockTimeout app |}.
Definition setMasterPassword (p : jsstring) (app : App) : App :=
  {| ui := ui app; password := password app; masterPassword := p;
     newPin := newPin app; confirmPin := confirmPin app;
     isLoading := isLoading app; lockTimeout := lockTimeout app |}.
Definition setLoading (b : bool) (app : App) : App :=
  {| ui := ui app; password := password app;
     masterPassword := masterPassword app; newPin := newPin app;
     confirmPin := confirmPin app; isLoading := b;
     lockTimeout := lockTimeout app |}.
Definition setLockTimeoutState (minutes : Z) (app : App) : App :=
  {| ui := ui app; password := password app;
     masterPassword := masterPassword app; newPin := newPin app;
     confirmPin := confirmPin app; isLoading := isLoading app;
     lockTimeout := minutes |}.

(** What [login(email, password)] of lib/api.ts resolves to: success with
    the salt of the profile, or failure with an optional error of a code
    and a message.  It catches what the network throws. *)
Inductive LoginResponse : Type :=
  | LoginSuccess (salt : string)
  | LoginFailure (error : option (string * string)).

Section Flows.
Context (env : Env).
Context (digest_SHA256 : list byte -> list byte).
(** [JSON.parse] followed by [crypto.subtle.importKey]: [None] when the
    stored text does not parse, and otherwise what the promise of the
    import settles to. *)
Context {K : Type} (importKey_jwk : string -> option (Settled K)).

(** When the import of the session key rejects, the [await] of
    [getKeyFromSession] throws: no screen is set, and the promise of
    [checkSession] rejects. *)
Definition checkSession (now : Z) (ui : UI) : Async (Settled UI) :=
  hasPinSet ← hasPin;
  expired ← isSessionExpired now;
  hasKey ← getKeyFromSession env importKey_jwk;
  match hasKey with
  | Some Rejected => mret Rejected
  | _ =>
    if hasPinSet && negb expired && bool_decide (is_Some hasKey) then
      mret (Fulfilled (setScreen main (loadSecrets ui)))
    else if hasPinSet then mret (Fulfilled (setScreen pin_unlock ui))
    else mret (Fulfilled (setScreen login ui))
  end.

(** The effect run when the popup opens.  When [checkSession] rejects,
    the lock timeout is not read. *)
Definition init (now : Z) (app : App) : Async App :=
  checked ← checkSession now (ui app);
  match checked with
  | Fulfilled ui' =>
    timeout ← getLockTimeout;
    mret (setLockTimeoutState timeout (withUI (fun _ => ui') app))
  | Rejected => mret app
  end.

Definition handlePinSetup (now : Z) (app : App) : Async App :=
  if Nat.ltb (length (newPin app)) 4 || Nat.ltb 6 (length (newPin app)) then
    mret (withUI (setError "PIN must be 4-6 digits") app)
  else if negb (bool_decide (newPin app = confirmPin app)) then
    mret (withUI (setError "PINs do not match") app)
  else
    setPin env digest_SHA256 (newPin app);;
    updateLastActivity now;;
    mret (withUI (setScreen main) (withUI loadSecrets (setMasterPassword [] app))).


Context (VITE_EXTENSION_PBKDF2_ITERATIONS : option Z).
Context {Material : Type}.
Context (PBKDF2_SHA256 : list byte -> list byte -> Z -> Material).
Context (JSON_stringify_jwk : Material -> string).
(** The [message] attribute of an exception. *)
Context (DOMException_message : DOMException -> string).

(** [response] is what [login] resolves to, [now] what [Date.now()]
    returns in [updateLastActivity]. *)
Definition handleLogin (response : LoginResponse) (now : Z) (app : App) : Async App :=
  let app := withUI (setError "") (setLoading true app) in
  match response with
  | LoginSuccess salt =>
    if String.eqb salt "" then
      mret (setLoading false
              (withUI (setError "Account has no encryption key. Please register first.")
                 app))
    else
      key ← initializeUserKey env VITE_EXTENSION_PBKDF2_ITERATIONS PBKDF2_SHA256
              JSON_stringify_jwk (password app) salt;
      match key with
      | inl e =>
        let code :=
          if DOMException_code e =? 0 then ""
          else "[" +:+ pretty (DOMException_code e) +:+ "] " in
        mret (setLoading false
                (withUI (setError (code +:+ DOMException_message e)) app))
      | inr _ =>
        let app := setMasterPassword (password app) app in
        updateLastActivity now;;
        hasPinSet ← hasPin;
        if hasPinSet : bool then
          mret (setLoading false (withUI (setScreen main) (withUI loadSecrets app)))
        else
          mret (setLoading false (withUI (setScreen pin_setup) app))
      end
  | LoginFailure error =>
    let errorMsg :=
      match error with
      | Some (code, message) => "[" +:+ code +:+ "] " +:+ message
      | None => "Login failed. Please check your credentials."
      end in
    mret (setLoading false (withUI (setError errorMsg) app))
  end.
End Flows.

(** ** The popup: listing and filling secrets (App.tsx) *)

Module SecretDTO.
Record t : Type := {
  id : jsstring;
  encryptedData : string;
  iv : string
}.
End SecretDTO.

Module DecryptedSecret.
Record t : Type := {
  id : jsstring;
  name : jsstring;
  username : option jsstring;
  password : option jsstring
}.
End DecryptedSecret.

(** The fields that [loadSecrets] reads from the parsed plaintext, at the
    types that [DecryptedSecret] declares; an absent field is
    [undefined]. *)
Record ParsedSecret : Type := {
  parsed_name : option jsstring;
  parsed_username : option jsstring;
  parsed_password : option jsstring
}.

(** [x || d] on an optional string. *)
Definition jsstring_or (x : option jsstring) (d : jsstring) : jsstring :=
  match x with
  | Some [] | None => d
  | Some s => s
  end.

Section Vault.
Context (env : Env).
(** [JSON.parse] followed by the awaited [crypto.subtle.importKey]:
    [None] when either fails.  The [try] of [loadSecrets] catches what
    [getKeyFromSession] throws: as when it returns null, [setSecrets] is
    not called. *)
Context {K : Type} (importKey_jwk : string -> option K).
Context (AES_GCM_decrypt : K -> list byte -> list byte -> option (list byte)).
(** [JSON.parse] followed by the reads of [name], [username] and
    [password]: [None] when one of them throws. *)
Context (JSON_parse : jsstring -> option ParsedSecret).

(** What [loadSecrets] shows for a secret that does not decrypt or
    parse. *)
Definition undecrypted (s : SecretDTO.t) : DecryptedSecret.t :=
  {| DecryptedSecret.id := SecretDTO.id s;
     DecryptedSecret.name :=
       js_of_string "Encrypted: " ++ take 8 (SecretDTO.id s) ++ js_of_string "...";
     DecryptedSecret.username := None;
     DecryptedSecret.password := None |}.

(** The body of the [map] in [loadSecrets], with its [try] and [catch]. *)
Definition decryptSecret (key : K) (s : SecretDTO.t) : DecryptedSecret.t :=
  match decryptData AES_GCM_decrypt key (SecretDTO.encryptedData s) (SecretDTO.iv s) with
  | Returns plaintext =>
    match JSON_parse plaintext with
    | Some parsed =>
      {| DecryptedSecret.id := SecretDTO.id s;
         DecryptedSecret.name :=
           jsstring_or (parsed_name parsed)
             (js_of_string "Secret " ++ take 8 (SecretDTO.id s));
         DecryptedSecret.username := parsed_username parsed;
         DecryptedSecret.password := parsed_password parsed |}
    | None => undecrypted s
    end
  | Throws _ => undecrypted s
  end.

(** The body of [loadSecrets]: the list given to [setSecrets], or [None]
    when [setSecrets] is not called.  [rawSecrets] is what [fetchSecrets]
    resolves to, [None] when it throws. *)
Definition loadSecrets_body (rawSecrets : option (list SecretDTO.t))
  : Async (option (list DecryptedSecret.t)) :=
  match rawSecrets with
  | None => mret None
  | Some rawSecrets =>
    key ← getKeyFromSession env importKey_jwk;
    match key with
    | None => mret None
    | Some key => mret (Some (map (decryptSecret key) rawSecrets))
    end
  end.
End Vault.

(** The message that [handleFill] sends to the content script. *)
Record FillMessage : Type := {
  action : string;
  fill_username : jsstring;
  fill_password : jsstring
}.

(** [x] is truthy: a string that is not empty. *)
Definition nonempty (x : option jsstring) : option jsstring :=
  match x with
  | Some [] | None => None
  | Some s => Some s
  end.

(** [tab] is the id of the active tab, if there is one.  The result has
    the clipboard and the message sent to that tab, if any. *)
Definition handleFill (granted : bool) (now : Z) (tab : option Z)
    (secret : DecryptedSecret.t) (c : Clipboard)
  : Clipboard * option (Z * FillMessage) :=
  let c' :=
    match nonempty (DecryptedSecret.password secret) with
    | Some password => copyToClipboard granted now password 30 c
    | None => c
    end in
  (c',
   match tab, nonempty (DecryptedSecret.username secret),
         nonempty (DecryptedSecret.password secret) with
   | Some tabId, Some username, Some password =>
     if tabId =? 0 then None
     else Some (tabId, {| action := "FILL_CREDENTIALS";
                          fill_username := username;
                          fill_password := password |})
   | _, _, _ => None
   end).

(** The content script: what its message listener does on a page with
    [passwordFields] password inputs. *)
Inductive PageEffect : Type :=
  | Nothing
  | ConsoleLog (text : string)
  | Alert (secretId : option jsstring).

Definition fillPasswordField (passwordFields : nat) (secretId : option jsstring)
  : PageEffect :=
  if Nat.eqb passwordFields 0 then ConsoleLog "CipherVault: No password field found"
  else Alert secretId.

Definition content_onMessage (action : string) (secretId : option jsstring)
    (passwordFields : nat) : PageEffect :=
  if String.eqb action "FILL_PASSWORD" then fillPasswordField passwordFields secretId
  else Nothing.

(** ** Series of operations on the stores *)

Definition runs (env : Env) (digest_SHA256 : list byte -> list byte)
    (ops : list Op) (w : World) : World :=
  foldl (fun w op => run env digest_SHA256 op w) w ops.

(** ** Further sample values *)

(** A digest of 32 bytes to run the examples with. *)
Definition sample_digest32 (data : list byte) : list byte :=
  take 32 (data ++ replicate 32 x00).

(** A wrong PIN in the unlock form. *)
Definition ui_wrong : UI := setInputPin [48; 48; 48; 48] ui_unlock.

Definition clipboard_empty : Clipboard := {| content := []; timers := [] |}.

(** A parser to run the examples with: the plaintext is the password of
    an unnamed secret. *)
Definition sample_parse (plaintext : jsstring) : option ParsedSecret :=
  Some {| parsed_name := None;
          parsed_username := Some [117];
          parsed_password := Some plaintext |}.




(** * Properties *)

(** ** The Levenshtein recursion and edit scripts *)

Section LevTheory.
Local Open Scope nat_scope.
Implicit Types (a b : list ascii) (x y : ascii).

Lemma lev_nil_l b : lev [] b = length b.
Proof. by destruct b. Qed.

Lemma lev_nil_r a : lev a [] = length a.
Proof. by destruct a. Qed.

Lemma lev_cons x a y b :
  lev (x :: a) (y :: b) =
  Nat.min (Nat.min (lev a (y :: b) + 1) (lev (x :: a) b + 1))
          (lev a b + (if decide (x = y) then 0 else 1)).
Proof. reflexivity. Qed.

Lemma lev_delete_le x a b : lev (x :: a) b ≤ S (lev a b).
Proof.
  destruct b as [|y b].
  - rewrite !lev_nil_r. simpl. lia.
  - rewrite lev_cons. destruct b; simpl; lia.
Qed.

Lemma lev_insert_le y a b : lev a (y :: b) ≤ S (lev a b).
Proof.
  destruct a as [|x a].
  - rewrite !lev_nil_l. simpl. lia.
  - rewrite lev_cons. lia.
Qed.

(** Dropping the first character of either word lowers the distance by
    one at most. *)
Lemma lev_le_delete x a b : lev a b ≤ S (lev (x :: a) b).
Proof.
  revert a x. induction b as [|y b IH]; intros a x.
  - rewrite !lev_nil_r. simpl. lia.
  - rewrite lev_cons.
    pose proof (lev_insert_le y a b). pose proof (IH a x). lia.
Qed.

Lemma lev_le_insert y a b : lev a b ≤ S (lev a (y :: b)).
Proof.
  revert b y. induction a as [|x a IH]; intros b y.
  - rewrite !lev_nil_l. simpl. lia.
  - rewrite lev_cons.
    pose proof (lev_delete_le x a b). pose proof (IH b y). lia.
Qed.

(** On equal first characters the recursion takes the diagonal, which is
    the shortcut of the dynamic program. *)
Lemma lev_cons_eq x a b : lev (x :: a) (x :: b) = lev a b.
Proof.
  rewrite lev_cons. rewrite decide_True by done.
  pose proof (lev_le_insert x a b). pose proof (lev_le_delete x a b). lia.
Qed.

Lemma lev_cons_ne x y a b :
  x ≠ y →
  lev (x :: a) (y :: b) =
  Nat.min (lev a b + 1) (Nat.min (lev (x :: a) b + 1) (lev a (y :: b) + 1)).
Proof. intros Hne. rewrite lev_cons. rewrite decide_False by done. lia. Qed.

(** *** Edit scripts *)

Lemma script_inserts b : script (length b) [] b.
Proof. induction b; simpl; by constructor. Qed.

Lemma script_deletes a : script (length a) a [].
Proof. induction a; simpl; by constructor. Qed.

(** The recursion is the cost of some script ... *)
Lemma script_lev a b : script (lev a b) a b.
Proof.
  revert b. induction a as [|x a IHa]; intros b.
  - rewrite lev_nil_l. apply script_inserts.
  - induction b as [|y b IHb].
    + rewrite lev_nil_r. apply script_deletes.
    + destruct (decide (x = y)) as [->|Hne].
      * rewrite lev_cons_eq. by constructor.
      * rewrite lev_cons_ne by done.
        destruct (Nat.min_spec (lev a b + 1)
                    (Nat.min (lev (x :: a) b + 1) (lev a (y :: b) + 1)))
          as [[_ ->]|[_ ->]].
        { rewrite Nat.add_1_r. by constructor. }
        destruct (Nat.min_spec (lev (x :: a) b + 1) (lev a (y :: b) + 1))
          as [[_ ->]|[_ ->]]; rewrite Nat.add_1_r; by constructor.
Qed.

(** ... and no script is cheaper. *)
Lemma lev_le_script n a b : script n a b → lev a b ≤ n.
Proof.
  induction 1 as [|x a b n _ IH|x y a b n _ IH|x a b n _ IH|y a b n _ IH].
  - done.
  - rewrite lev_cons_eq. done.
  - rewrite lev_cons. destruct (decide (x = y)); lia.
  - pose proof (lev_delete_le x a b). lia.
  - pose proof (lev_insert_le y a b). lia.
Qed.

Lemma script_sym n a b : script n a b → script n b a.
Proof. induction 1; by constructor. Qed.

Lemma script_snoc_keep n a b x :
  script n a b → script n (a ++ [x]) (b ++ [x]).
Proof. induction 1; simpl; repeat constructor; done. Qed.

Lemma script_snoc_subst n a b x y :
  script n a b → script (S n) (a ++ [x]) (b ++ [y]).
Proof. induction 1; simpl; repeat constructor; done. Qed.

Lemma script_snoc_delete n a b x :
  script n a b → script (S n) (a ++ [x]) b.
Proof. induction 1; simpl; repeat constructor; done. Qed.

Lemma script_snoc_insert n a b y :
  script n a b → script (S n) a (b ++ [y]).
Proof. induction 1; simpl; repeat constructor; done. Qed.

Lemma script_reverse n a b : script n a b → script n (reverse a) (reverse b).
Proof.
  induction 1; rewrite ?reverse_cons.
  - constructor.
  - by apply script_snoc_keep.
  - by apply script_snoc_subst.
  - by apply script_snoc_delete.
  - by apply script_snoc_insert.
Qed.

Lemma lev_sym a b : lev a b = lev b a.
Proof.
  apply Nat.le_antisymm; apply lev_le_script, script_sym, script_lev.
Qed.

Lemma lev_reverse a b : lev (reverse a) (reverse b) = lev a b.
Proof.
  apply Nat.le_antisymm.
  - apply lev_le_script, script_reverse, script_lev.
  - rewrite <- (reverse_involutive a), <- (reverse_involutive b) at 1.
    apply lev_le_script, script_reverse, script_lev.
Qed.
End LevTheory.

(** ** The dynamic program of [levenshteinDistance] *)

Lemma get_list_ascii (s : string) (i : nat) :
  String.get i s = list_ascii_of_string s !! i.
Proof.
  revert i. induction s as [|c s IH]; intros [|i]; simpl; auto.
Qed.

Lemma length_list_ascii (s : string) :
  length (list_ascii_of_string s) = String.length s.
Proof. induction s; simpl; congruence. Qed.

Lemma for_loop_S {S : Type} from count (body : nat → S → option S) s :
  for_loop from (Datatypes.S count) body s
  = for_loop from count body s ≫= body (from + count)%nat.
Proof. unfold for_loop. by rewrite seq_S, foldl_snoc. Qed.

Lemma arr_set_end {A : Type} (l : list A) (i : nat) (v : A) :
  length l = i → arr_set i v l = Some (l ++ [v])%list.
Proof.
  intros <-. unfold arr_set.
  destruct (Nat.ltb_spec (length l) (length l)); [lia|].
  by rewrite Nat.eqb_refl.
Qed.

Lemma arr_set_inside {A : Type} (l : list A) (i : nat) (v : A) :
  (i < length l)%nat → arr_set i v l = Some (<[i := v]> l).
Proof.
  intros Hi. unfold arr_set.
  destruct (Nat.ltb_spec i (length l)); [done|lia].
Qed.

(** Writing a cell with the value it already holds changes nothing. *)
Lemma mat_set_same (i j : nat) (v : Z) (matrix : list (list Z)) :
  mat_get i j matrix = Some v → mat_set i j v matrix = Some matrix.
Proof.
  unfold mat_get, mat_set. intros H.
  destruct (matrix !! i) as [row|] eqn:Hrow; [simpl in *|done].
  rewrite arr_set_inside by (by eapply lookup_lt_Some). simpl.
  rewrite (list_insert_id _ _ _ H).
  rewrite arr_set_inside by (by eapply lookup_lt_Some).
  by rewrite list_insert_id.
Qed.

Section Matrix.
Local Open Scope nat_scope.
Variables a b : string.
Local Abbreviation A := (list_ascii_of_string a).
Local Abbreviation B := (list_ascii_of_string b).
Local Abbreviation n := (String.length a).
Local Abbreviation m := (String.length b).

Lemma cell_0_l j : j ≤ n → cell a b 0 j = j.
Proof.
  intros Hj. unfold cell. rewrite take_0, lev_nil_l, length_reverse, length_take.
  rewrite length_list_ascii. lia.
Qed.

Lemma cell_0_r i : i ≤ m → cell a b i 0 = i.
Proof.
  intros Hi. unfold cell. rewrite take_0, lev_nil_r, length_reverse, length_take.
  rewrite length_list_ascii. lia.
Qed.

Lemma cell_eq i j x :
  B !! i = Some x → A !! j = Some x → cell a b (S i) (S j) = cell a b i j.
Proof.
  intros HB HA. unfold cell.
  rewrite (take_S_r _ _ _ HB), (take_S_r _ _ _ HA), !reverse_snoc.
  apply lev_cons_eq.
Qed.

Lemma cell_ne i j x y :
  B !! i = Some x → A !! j = Some y → x ≠ y →
  cell a b (S i) (S j) =
  Nat.min (cell a b i j + 1)
          (Nat.min (cell a b (S i) j + 1) (cell a b i (S j) + 1)).
Proof.
  intros HB HA Hne. unfold cell.
  rewrite (take_S_r _ _ _ HB), (take_S_r _ _ _ HA), !reverse_snoc.
  by apply lev_cons_ne.
Qed.

Lemma cell_final : cell a b m n = lev A B.
Proof.
  unfold cell. rewrite lev_reverse, lev_sym.
  by rewrite <- !length_list_ascii, !firstn_all.
Qed.

Lemma length_prow i k : length (prow a b i k) = S k.
Proof. unfold prow. by rewrite length_fmap, length_seq. Qed.

Lemma lookup_prow i k j :
  j ≤ k → prow a b i k !! j = Some (Z.of_nat (cell a b i j)).
Proof.
  intros Hj. unfold prow. rewrite list_lookup_fmap, lookup_seq_lt by lia. done.
Qed.

Lemma prow_S i k :
  prow a b i (S k) = (prow a b i k ++ [Z.of_nat (cell a b i (S k))])%list.
Proof. unfold prow. by rewrite (seq_S (S k)), fmap_app. Qed.

Lemma length_mat i j : length (mat a b i j) = S m.
Proof. unfold mat. by rewrite length_fmap, length_seq. Qed.

Lemma lookup_mat i j i' :
  i' ≤ m → mat a b i j !! i' = Some (prow a b i' (fill a i j i')).
Proof.
  intros Hi. unfold mat. rewrite list_lookup_fmap, lookup_seq_lt by lia. done.
Qed.

Lemma fill_above i j i' : i' < i → fill a i j i' = n.
Proof. intros H. unfold fill. by destruct (Nat.ltb_spec i' i); [|lia]. Qed.

Lemma fill_at i j : fill a i j i = j.
Proof. unfold fill. by rewrite Nat.ltb_irrefl, Nat.eqb_refl. Qed.

Lemma mat_get_mat i j i' j' :
  i' ≤ m → j' ≤ fill a i j i' →
  mat_get i' j' (mat a b i j) = Some (Z.of_nat (cell a b i' j')).
Proof.
  intros Hi Hj. unfold mat_get. rewrite lookup_mat by done. simpl.
  by apply lookup_prow.
Qed.

(** Writing the next cell of the current row. *)
Lemma mat_set_next i j v :
  i ≤ m → v = Z.of_nat (cell a b i (S j)) →
  mat_set i (S j) v (mat a b i j) = Some (mat a b i (S j)).
Proof.
  intros Hi ->. unfold mat_set. rewrite lookup_mat by done. simpl.
  rewrite fill_at.
  rewrite arr_set_end by apply length_prow. simpl.
  rewrite arr_set_inside by (rewrite length_mat; lia).
  f_equal. apply list_eq. intros k.
  destruct (decide (k = i)) as [->|Hne].
  - rewrite list_lookup_insert_eq by (rewrite length_mat; lia).
    rewrite lookup_mat by done. f_equal.
    by rewrite fill_at, prow_S.
  - rewrite list_lookup_insert_ne by done.
    unfold mat. rewrite !list_lookup_fmap.
    destruct (seq 0 (S m) !! k) as [k'|] eqn:Hk; [|done].
    apply lookup_seq in Hk as [-> _]. simpl. f_equal. unfold fill.
    destruct (Nat.ltb_spec k i); [done|].
    destruct (Nat.eqb_spec k i); [done|done].
Qed.

(** A complete row is followed by the first cell of the next one. *)
Lemma mat_next_row i : i < m → mat a b i n = mat a b (S i) 0.
Proof.
  intros Hi. unfold mat. apply list_fmap_ext. intros _ k _. f_equal.
  unfold fill.
  destruct (Nat.ltb_spec k i), (Nat.ltb_spec k (S i)),
           (Nat.eqb_spec k i), (Nat.eqb_spec k (S i)); lia.
Qed.

(** The first loop creates the rows, each with its first cell. *)
Lemma init_rows k :
  for_loop 0 k (fun i matrix => arr_set i [Z.of_nat i] matrix) []
  = Some ((fun i => [Z.of_nat i]) <$> seq 0 k).
Proof.
  induction k as [|k IH]; [done|].
  rewrite for_loop_S, IH, seq_S, fmap_app. simpl.
  apply arr_set_end. by rewrite length_fmap, length_seq.
Qed.

Lemma init_rows_mat :
  (fun i => [Z.of_nat i]) <$> seq 0 (S m) = mat a b 0 0.
Proof.
  unfold mat. apply list_fmap_ext. intros i k Hk.
  apply lookup_seq in Hk as [-> Hk]. simpl.
  unfold prow, fill. destruct i; simpl; by rewrite cell_0_r by lia.
Qed.

(** The second loop fills row 0. *)
Lemma init_row0 k :
  k ≤ n →
  for_loop 0 (S k) (fun j matrix => mat_set 0 j (Z.of_nat j) matrix) (mat a b 0 0)
  = Some (mat a b 0 k).
Proof.
  induction k as [|k IH]; intros Hk.
  - unfold for_loop. simpl. apply mat_set_same.
    rewrite mat_get_mat by (rewrite ?fill_at; lia). by rewrite cell_0_l by lia.
  - rewrite for_loop_S, IH by lia. simpl.
    apply mat_set_next; [lia|]. by rewrite cell_0_l by lia.
Qed.

(** One step of the inner loop, at row [S i] and column [S k]. *)
Lemma inner_step i k :
  i < m → k < n →
  (if decide (charAt (S i - 1) b = charAt (S k - 1) a) then
     d ← mat_get (S i - 1) (S k - 1) (mat a b (S i) k);
     mat_set (S i) (S k) d (mat a b (S i) k)
   else
     d ← mat_get (S i - 1) (S k - 1) (mat a b (S i) k);
     l ← mat_get (S i) (S k - 1) (mat a b (S i) k);
     u ← mat_get (S i - 1) (S k) (mat a b (S i) k);
     mat_set (S i) (S k) (Z.min (d + 1) (Z.min (l + 1) (u + 1)))%Z
       (mat a b (S i) k))
  = Some (mat a b (S i) (S k)).
Proof.
  intros Hi Hk.
  replace (S i - 1) with i by lia. replace (S k - 1) with k by lia.
  unfold charAt. rewrite !get_list_ascii.
  destruct (lookup_lt_is_Some_2 B i) as [x Hx]; [rewrite length_list_ascii; lia|].
  destruct (lookup_lt_is_Some_2 A k) as [y Hy]; [rewrite length_list_ascii; lia|].
  rewrite Hx, Hy.
  rewrite (mat_get_mat (S i) k i k) by (rewrite ?fill_above; lia).
  rewrite (mat_get_mat (S i) k (S i) k) by (rewrite ?fill_at; lia).
  rewrite (mat_get_mat (S i) k i (S k)) by (rewrite ?fill_above; lia).
  simpl.
  destruct (decide (Some x = Some y)) as [[= ->]|Hne].
  - apply mat_set_next; [lia|]. by rewrite (cell_eq i k y).
  - apply mat_set_next; [lia|].
    rewrite (cell_ne i k x y) by congruence. lia.
Qed.

Lemma inner_loop i k :
  i < m → k ≤ n →
  for_loop 1 k (fun j matrix =>
    if decide (charAt (S i - 1) b = charAt (j - 1) a) then
      d ← mat_get (S i - 1) (j - 1) matrix;
      mat_set (S i) j d matrix
    else
      d ← mat_get (S i - 1) (j - 1) matrix;
      l ← mat_get (S i) (j - 1) matrix;
      u ← mat_get (S i - 1) j matrix;
      mat_set (S i) j (Z.min (d + 1) (Z.min (l + 1) (u + 1)))%Z matrix)
    (mat a b (S i) 0)
  = Some (mat a b (S i) k).
Proof.
  intros Hi. induction k as [|k IH]; intros Hk; [done|].
  rewrite for_loop_S, IH by lia. simpl. by apply inner_step.
Qed.

Lemma outer_loop k :
  k ≤ m →
  for_loop 1 k (fun i matrix =>
    for_loop 1 n (fun j matrix =>
      if decide (charAt (i - 1) b = charAt (j - 1) a) then
        d ← mat_get (i - 1) (j - 1) matrix;
        mat_set i j d matrix
      else
        d ← mat_get (i - 1) (j - 1) matrix;
        l ← mat_get i (j - 1) matrix;
        u ← mat_get (i - 1) j matrix;
        mat_set i j (Z.min (d + 1) (Z.min (l + 1) (u + 1)))%Z matrix)
    matrix) (mat a b 0 n)
  = Some (mat a b k n).
Proof.
  induction k as [|k IH]; intros Hk; [done|].
  rewrite for_loop_S, IH by lia. simpl.
  rewrite mat_next_row by lia. by apply inner_loop.
Qed.

(** The dynamic program computes the classic distance, and reads no
    missing cell on the way. *)
Lemma levenshteinDistance_lev :
  levenshteinDistance a b = Some (Z.of_nat (lev A B)).
Proof.
  unfold levenshteinDistance.
  rewrite init_rows, init_rows_mat. simpl.
  rewrite init_row0 by lia. simpl.
  rewrite outer_loop by lia. simpl.
  rewrite mat_get_mat by (rewrite ?fill_at; lia).
  by rewrite cell_final.
Qed.
End Matrix.

(** ** Base64: [atob] undoes [btoa] *)

Ltac div_lia := zify; Z.to_euclidean_division_equations; lia.

Lemma list_ind3 {A : Type} (P : list A → Prop) :
  P [] → (∀ x, P [x]) → (∀ x y, P [x; y]) →
  (∀ x y z l, P l → P (x :: y :: z :: l)) →
  ∀ l, P l.
Proof.
  intros H0 H1 H2 H3 l.
  cut (P l ∧ (∀ x, P (x :: l)) ∧ (∀ x y, P (x :: y :: l))); [tauto|].
  induction l as [|z l (IH0 & IH1 & IH2)]; auto.
Qed.

(** The alphabet: 64 characters, none a space, none the padding. *)
Lemma b64_alphabet_ok (n : N) :
  (n < 64)%N →
  b64_index (b64_char n) = Some n
  ∧ is_ascii_whitespace (b64_char n) = false
  ∧ b64_char n ≠ "="%char.
Proof.
  intros Hn.
  assert (Forall (fun k => b64_index (b64_char k) = Some k
                           ∧ is_ascii_whitespace (b64_char k) = false
                           ∧ b64_char k ≠ "="%char)
                 (N.of_nat <$> seq 0 64)) as Hall.
  { apply (bool_decide_unpack _). by vm_compute. }
  rewrite Forall_forall in Hall. apply Hall.
  apply list_elem_of_fmap. exists (N.to_nat n). split; [lia|].
  apply elem_of_seq. lia.
Qed.

Lemma b64_sextets_bound (bs : list N) :
  Forall (fun b => b < 256)%N bs → Forall (fun s => s < 64)%N (b64_sextets bs).
Proof.
  induction bs as [|x|x y|x y z l IH] using list_ind3; intros H;
    cbn [b64_sextets app].
  - constructor.
  - inversion_clear H. repeat constructor; div_lia.
  - inversion_clear H as [|? ? ? H']. inversion_clear H'.
    repeat constructor; div_lia.
  - inversion_clear H as [|? ? ? H']. inversion_clear H' as [|? ? ? H''].
    inversion_clear H''.
    repeat (constructor; [div_lia|]). by apply IH.
Qed.

(** Three bytes, cut into four groups and put together again. *)
Lemma b64_group3 (x y z : N) :
  (x < 256 → y < 256 → z < 256 →
   let n := ((x / 4 * 64 + (x mod 4 * 16 + y / 16)) * 64
             + (y mod 16 * 4 + z / 64)) * 64 + z mod 64 in
   n / 65536 = x ∧ (n / 256) mod 256 = y ∧ n mod 256 = z)%N.
Proof.
  intros Hx Hy Hz n.
  assert (n = x * 65536 + y * 256 + z)%N as -> by (subst n; div_lia).
  repeat split; div_lia.
Qed.

Lemma b64_group2 (x y : N) :
  (x < 256 → y < 256 →
   let n := ((x / 4 * 64 + (x mod 4 * 16 + y / 16)) * 64 + y mod 16 * 4) / 4 in
   n / 256 = x ∧ n mod 256 = y)%N.
Proof.
  intros Hx Hy n.
  assert (n = x * 256 + y)%N as -> by (subst n; div_lia).
  split; div_lia.
Qed.

Lemma b64_group1 (x : N) : (x < 256 → (x / 4 * 64 + x mod 4 * 16) / 16 = x)%N.
Proof. intros Hx. div_lia. Qed.

Lemma b64_bytes_sextets (bs : list N) :
  Forall (fun b => b < 256)%N bs → b64_bytes (b64_sextets bs) = bs.
Proof.
  induction bs as [|x|x y|x y z l IH] using list_ind3; intros H;
    cbn [b64_sextets b64_bytes app].
  - done.
  - inversion_clear H. by rewrite b64_group1.
  - inversion_clear H as [|? ? ? H']. inversion_clear H'.
    by destruct (b64_group2 x y) as [-> ->].
  - inversion_clear H as [|? ? ? H']. inversion_clear H' as [|? ? ? H''].
    inversion_clear H''.
    rewrite IH by done.
    by destruct (b64_group3 x y z) as (-> & -> & ->).
Qed.

Lemma b64_sextets_length (bs : list N) :
  ((length (b64_sextets bs) + (3 - length bs mod 3) mod 3) mod 4 = 0
   ∧ length (b64_sextets bs) mod 4 ≠ 1)%nat.
Proof.
  induction bs as [|x|x y|x y z l IH] using list_ind3;
    cbn [b64_sextets app length]; try done.
  div_lia.
Qed.

Lemma strip_padding_pad (xs : list ascii) (k : nat) :
  Forall (fun c => c ≠ "="%char) xs → (k ≤ 2)%nat →
  strip_padding (xs ++ replicate k "="%char) = xs.
Proof.
  intros Hxs Hk. unfold strip_padding.
  assert (∀ c r, reverse xs = c :: r → Ascii.eqb c "=" = false) as Hlast.
  { intros c r Hr. apply Ascii.eqb_neq.
    apply Forall_reverse in Hxs. rewrite Hr in Hxs. by inversion Hxs. }
  destruct k as [|[|[|k]]]; [| | |lia]; simpl.
  - rewrite app_nil_r. destruct (reverse xs) as [|c r] eqn:Hr; [done|].
    by rewrite (Hlast c r).
  - rewrite reverse_snoc. simpl.
    destruct (reverse xs) as [|c r] eqn:Hr.
    + by rewrite <- (reverse_involutive xs), Hr.
    + rewrite (Hlast c r) by done. by rewrite <- Hr, reverse_involutive.
  - rewrite (reverse_app xs ["="%char; "="%char]). simpl.
    by rewrite reverse_involutive.
Qed.

Lemma filter_all {A : Type} (P : A → Prop) `{!∀ x, Decision (P x)} (l : list A) :
  Forall P l → filter P l = l.
Proof.
  induction 1 as [|x l Hx _ IH]; [done|].
  by rewrite filter_cons_True, IH.
Qed.

Lemma mapM_b64_index (ss : list N) :
  Forall (fun s => s < 64)%N ss → mapM b64_index (b64_char <$> ss) = Some ss.
Proof.
  intros Hss. apply mapM_Some, Forall2_fmap_l, Forall_Forall2_diag.
  eapply Forall_impl; [exact Hss|]. intros s Hs. by apply b64_alphabet_ok.
Qed.

(** [atob] decodes what [btoa] encoded. *)
Lemma atob_btoa (s : string) : atob (btoa s) = Some s.
Proof.
  unfold atob, btoa. rewrite list_ascii_of_string_of_list_ascii.
  set (bs := N_of_ascii <$> list_ascii_of_string s).
  assert (Forall (fun b => b < 256)%N bs) as Hbs.
  { subst bs. apply Forall_fmap, Forall_true. intros c. apply N_ascii_bounded. }
  pose proof (b64_sextets_bound bs Hbs) as Hss.
  pose proof (b64_sextets_length bs) as [Hlen Hlen1].
  set (xs := b64_char <$> b64_sextets bs).
  assert (Forall (fun c => is_ascii_whitespace c = false ∧ c ≠ "="%char) xs) as Hxs.
  { subst xs. apply Forall_fmap. eapply Forall_impl; [exact Hss|].
    intros n Hn. simpl. destruct (b64_alphabet_ok n Hn) as (_ & ? & ?). done. }
  rewrite filter_all.
  2:{ apply Forall_app. split.
      - eapply Forall_impl; [exact Hxs|]. by intros c [? _].
      - unfold b64_padding. apply Forall_forall. intros c Hc.
        apply elem_of_replicate in Hc as [-> _]. reflexivity. }
  destruct (decide (length (xs ++ b64_padding (length bs)) mod 4 = 0)%nat)
    as [_|Hne].
  2:{ destruct Hne. rewrite length_app. unfold b64_padding.
      rewrite length_replicate. subst xs. by rewrite length_fmap. }
  unfold b64_padding. rewrite strip_padding_pad.
  2:{ eapply Forall_impl; [exact Hxs|]. by intros c [_ ?]. }
  2:{ div_lia. }
  rewrite decide_False by (subst xs; by rewrite length_fmap).
  subst xs. rewrite mapM_b64_index by done. simpl.
  rewrite b64_bytes_sextets by done. subst bs.
  rewrite <- list_fmap_compose.
  rewrite (list_fmap_ext _ id (list_ascii_of_string s)).
  2:{ intros _ c _. simpl. apply ascii_N_embedding. }
  by rewrite list_fmap_id, string_of_list_ascii_of_string.
Qed.

(** ** lib/crypto.ts: the encoding utilities *)

Lemma append_snoc (s : string) (c : ascii) (r : string) :
  (s +:+ String c "") +:+ r = s +:+ String c r.
Proof.
  induction s as [|d s IH]; [done|].
  unfold String.app in *. simpl. by rewrite IH.
Qed.

(** The loop of [arrayBufferToBase64] builds the binary string of the
    buffer. *)
Lemma binary_of_buffer (buffer : list byte) (init : string) :
  foldl (fun binary b => binary +:+ String (ascii_of_byte b) EmptyString)
        init buffer
  = init +:+ string_of_list_ascii (ascii_of_byte <$> buffer).
Proof.
  revert init. induction buffer as [|b buffer IH]; intros init; simpl.
  - unfold String.app. induction init as [|c init IHi]; [done|].
    simpl. by rewrite <- IHi.
  - by rewrite IH, append_snoc.
Qed.

(** The loop of [base64ToArrayBuffer] fills the array cell by cell. *)
Lemma fill_cells {A : Type} (f : nat → A) (init : list A) (k : nat) :
  (k ≤ length init)%nat →
  foldl (fun cells i => <[i := f i]> cells) init (seq 0 k)
  = ((f <$> seq 0 k) ++ drop k init)%list.
Proof.
  induction k as [|k IH]; intros Hk; [by rewrite drop_0|].
  rewrite seq_S, foldl_snoc, IH by lia. simpl.
  rewrite fmap_app. simpl.
  destruct (lookup_lt_is_Some_2 init k) as [x Hx]; [lia|].
  rewrite (drop_S _ _ _ Hx).
  rewrite insert_app_r_alt by (rewrite length_fmap, length_seq; lia).
  rewrite length_fmap, length_seq, Nat.sub_diag. simpl.
  by rewrite <- app_assoc.
Qed.

Lemma charCodes (s : string) :
  (fun i => charCodeAt_byte i s) <$> seq 0 (String.length s)
  = byte_of_ascii <$> list_ascii_of_string s.
Proof.
  apply list_eq. intros i. rewrite !list_lookup_fmap.
  destruct (decide (i < String.length s)%nat) as [Hi|Hi].
  - rewrite lookup_seq_lt by done. simpl. unfold charCodeAt_byte.
    rewrite get_list_ascii.
    destruct (lookup_lt_is_Some_2 (list_ascii_of_string s) i) as [c Hc];
      [by rewrite length_list_ascii|].
    by rewrite Hc.
  - rewrite lookup_seq_ge by lia.
    rewrite lookup_ge_None_2 by (rewrite length_list_ascii; lia). done.
Qed.

Lemma base64ToArrayBuffer_atob (base64 binary_string : string) :
  atob base64 = Some binary_string →
  base64ToArrayBuffer base64
  = Some (byte_of_ascii <$> list_ascii_of_string binary_string).
Proof.
  intros H. unfold base64ToArrayBuffer. rewrite H. simpl. f_equal.
  rewrite fill_cells by (by rewrite length_replicate).
  rewrite drop_ge by (by rewrite length_replicate).
  by rewrite app_nil_r, charCodes.
Qed.

(** The bytes come back from the base64 text of their binary string. *)
Lemma base64ToArrayBuffer_btoa (b : list byte) :
  base64ToArrayBuffer (btoa (string_of_list_ascii (ascii_of_byte <$> b))) = Some b.
Proof.
  rewrite (base64ToArrayBuffer_atob _ _ (atob_btoa _)). f_equal.
  rewrite list_ascii_of_string_of_list_ascii, <- list_fmap_compose.
  rewrite (list_fmap_ext _ id b); [by rewrite list_fmap_id|].
  intros _ x _. simpl. apply byte_of_ascii_of_byte.
Qed.

(** C10. Decoding the base64 text of a byte array gives the array back. *)
Theorem base64_roundtrip (b : list byte) :
  base64ToArrayBuffer (arrayBufferToBase64 b) = Some b.
Proof.
  unfold arrayBufferToBase64. rewrite binary_of_buffer.
  change (EmptyString +:+ ?s) with s.
  apply base64ToArrayBuffer_btoa.
Qed.

(** ** UTF-8: [TextDecoder] undoes [TextEncoder] on well-formed strings *)

Lemma Z_of_byte_of_Z (z : Z) : 0 <= z < 256 → Z_of_byte (byte_of_Z z) = z.
Proof.
  intros Hz. unfold Z_of_byte, byte_of_Z.
  destruct (Byte.of_N (Z.to_N z)) as [b|] eqn:Hb.
  - apply Byte.to_of_N in Hb. lia.
  - apply Byte.of_N_None_iff in Hb. lia.
Qed.

Ltac decide_tests :=
  repeat match goal with
  | |- context [?x <=? ?y] => destruct (Z.leb_spec x y); try lia
  | |- context [?x <? ?y] => destruct (Z.ltb_spec x y); try lia
  | |- context [?x =? ?y] => destruct (Z.eqb_spec x y); try lia
  end.

Lemma utf8_decode_start (b : Z) (bs : list Z) :
  utf8_decode utf8_init (b :: bs)
  = (option_list (utf8_lead b).1 ++ utf8_decode (utf8_lead b).2 bs)%list.
Proof. reflexivity. Qed.

Lemma utf8_decode_continue (st : utf8_state) (b : Z) (bs : list Z) :
  bytes_needed st ≠ 0 → lower_boundary st <= b <= upper_boundary st →
  utf8_decode st (b :: bs)
  = if bytes_seen st + 1 =? bytes_needed st
    then code_point st * 64 + b mod 64 :: utf8_decode utf8_init bs
    else utf8_decode {| code_point := code_point st * 64 + b mod 64;
                        bytes_seen := bytes_seen st + 1;
                        bytes_needed := bytes_needed st;
                        lower_boundary := 128; upper_boundary := 191 |} bs.
Proof.
  intros Hn Hb. cbn [utf8_decode].
  destruct (Z.eqb_spec (bytes_needed st) 0); [done|].
  destruct (Z.ltb_spec b (lower_boundary st)); [lia|].
  destruct (Z.ltb_spec (upper_boundary st) b); [lia|].
  reflexivity.
Qed.

Lemma utf8_lead_1 (b : Z) : b <= 127 → utf8_lead b = (Some b, utf8_init).
Proof. intros. unfold utf8_lead. by decide_tests. Qed.

Lemma utf8_lead_2 (b : Z) :
  194 <= b <= 223 →
  utf8_lead b
  = (None, {| code_point := b mod 32; bytes_seen := 0; bytes_needed := 1;
              lower_boundary := 128; upper_boundary := 191 |}).
Proof. intros. unfold utf8_lead. by decide_tests. Qed.

Lemma utf8_lead_3 (b : Z) :
  224 <= b <= 239 →
  utf8_lead b
  = (None, {| code_point := b mod 16; bytes_seen := 0; bytes_needed := 2;
              lower_boundary := if b =? 224 then 160 else 128;
              upper_boundary := if b =? 237 then 159 else 191 |}).
Proof.
  intros. unfold utf8_lead.
  destruct (Z.leb_spec b 127); [lia|].
  destruct (Z.leb_spec 194 b), (Z.leb_spec b 223); try lia; cbn [andb];
  destruct (Z.leb_spec 224 b), (Z.leb_spec b 239); try lia; done.
Qed.

Lemma utf8_lead_4 (b : Z) :
  240 <= b <= 244 →
  utf8_lead b
  = (None, {| code_point := b mod 8; bytes_seen := 0; bytes_needed := 3;
              lower_boundary := if b =? 240 then 144 else 128;
              upper_boundary := if b =? 244 then 143 else 191 |}).
Proof.
  intros. unfold utf8_lead.
  destruct (Z.leb_spec b 127); [lia|].
  destruct (Z.leb_spec 194 b), (Z.leb_spec b 223); try lia; cbn [andb];
  destruct (Z.leb_spec 224 b), (Z.leb_spec b 239); try lia; cbn [andb];
  destruct (Z.leb_spec 240 b), (Z.leb_spec b 244); try lia; done.
Qed.

(** The decoder reads back the bytes of a scalar value. *)
Lemma utf8_decode_scalar (u : Z) (bs : list Z) :
  is_scalar u →
  utf8_decode utf8_init ((Z_of_byte <$> utf8_of_scalar u) ++ bs)
  = u :: utf8_decode utf8_init bs.
Proof.
  intros [Hu Hs]. unfold utf8_of_scalar.
  destruct (Z.ltb_spec u 128); [|destruct (Z.ltb_spec u 2048);
    [|destruct (Z.ltb_spec u 65536)]]; cbn [fmap list_fmap app].
  - rewrite Z_of_byte_of_Z by lia.
    by rewrite utf8_decode_start, utf8_lead_1 by lia.
  - rewrite !Z_of_byte_of_Z by div_lia.
    rewrite utf8_decode_start, utf8_lead_2 by div_lia.
    cbn [fst snd].
    rewrite utf8_decode_continue by (cbn; div_lia).
    cbn [bytes_seen bytes_needed code_point]. simpl (0 + 1 =? 1).
    cbv iota. change (option_list (@None Z)) with (@nil Z). cbn [app].
    f_equal. div_lia.
  - rewrite !Z_of_byte_of_Z by div_lia.
    rewrite utf8_decode_start, utf8_lead_3 by div_lia.
    cbn [fst snd].
    rewrite utf8_decode_continue.
    2:{ cbn. lia. }
    2:{ cbn [lower_boundary upper_boundary]. decide_tests; div_lia. }
    cbn [bytes_seen bytes_needed code_point]. simpl (0 + 1 =? 2).
    cbv iota.
    rewrite utf8_decode_continue by (cbn; div_lia).
    cbn [bytes_seen bytes_needed code_point]. simpl (0 + 1 + 1 =? 2).
    cbv iota. change (option_list (@None Z)) with (@nil Z). cbn [app].
    f_equal. div_lia.
  - rewrite !Z_of_byte_of_Z by div_lia.
    rewrite utf8_decode_start, utf8_lead_4 by div_lia.
    cbn [fst snd].
    rewrite utf8_decode_continue.
    2:{ cbn. lia. }
    2:{ cbn [lower_boundary upper_boundary]. decide_tests; div_lia. }
    cbn [bytes_seen bytes_needed code_point]. simpl (0 + 1 =? 3).
    cbv iota.
    rewrite utf8_decode_continue by (cbn; div_lia).
    cbn [bytes_seen bytes_needed code_point]. simpl (0 + 1 + 1 =? 3).
    cbv iota.
    rewrite utf8_decode_continue by (cbn; div_lia).
    cbn [bytes_seen bytes_needed code_point]. simpl (0 + 1 + 1 + 1 =? 3).
    cbv iota. change (option_list (@None Z)) with (@nil Z). cbn [app].
    f_equal. div_lia.
Qed.

Lemma utf8_decode_scalars (points : list Z) :
  Forall is_scalar points →
  utf8_decode utf8_init (Z_of_byte <$> (points ≫= utf8_of_scalar)) = points.
Proof.
  induction 1 as [|u points Hu _ IH]; [done|].
  rewrite bind_cons, fmap_app, utf8_decode_scalar by done. by rewrite IH.
Qed.

(** The scalar values of a well-formed string are scalar values indeed,
    and their UTF-16 code units are the string. *)
Lemma scalar_values_well_formed (s : jsstring) :
  well_formed s = true →
  Forall is_scalar (scalar_values s)
  ∧ scalar_values s ≫= utf16_of_scalar = s
  ∧ (head (scalar_values s) = Some 65279 → head s = Some 65279).
Proof.
  remember (length s) as n eqn:Hn. revert s Hn.
  induction n as [n IH] using lt_wf_ind. intros s Hn Hwf.
  destruct s as [|c rest]; [by repeat split|].
  cbn [well_formed scalar_values] in *.
  destruct (is_high_surrogate c) eqn:Hhigh.
  - destruct rest as [|d rest']; [done|].
    apply andb_true_iff in Hwf as [Hlow Hwf]. rewrite Hlow.
    destruct (IH (length rest')) with (s := rest') as (IH1 & IH2 & _);
      [simpl in Hn; lia|done|done|].
    unfold is_high_surrogate in Hhigh. unfold is_low_surrogate in Hlow.
    apply andb_true_iff in Hhigh as [?%Z.leb_le ?%Z.leb_le].
    apply andb_true_iff in Hlow as [?%Z.leb_le ?%Z.leb_le].
    split; [|split].
    + constructor; [|done]. unfold is_scalar. lia.
    + rewrite bind_cons, IH2. unfold utf16_of_scalar.
      destruct (Z.ltb_spec (65536 + (c - 55296) * 1024 + (d - 56320)) 65536);
        [lia|].
      cbn [app]. f_equal; [div_lia|]. f_equal. div_lia.
    + cbn [head]. intros [= ?]. lia.
  - destruct (is_low_surrogate c) eqn:Hlow; [done|].
    apply andb_true_iff in Hwf as [Hc Hwf].
    apply andb_true_iff in Hc as [?%Z.leb_le ?%Z.ltb_lt].
    destruct (IH (length rest)) with (s := rest) as (IH1 & IH2 & _);
      [simpl in Hn; lia|done|done|].
    unfold is_high_surrogate in Hhigh. unfold is_low_surrogate in Hlow.
    apply andb_false_iff in Hhigh. apply andb_false_iff in Hlow.
    rewrite !Z.leb_gt in Hhigh, Hlow.
    split; [|split].
    + constructor; [|done]. unfold is_scalar. lia.
    + rewrite bind_cons, IH2. unfold utf16_of_scalar.
      by destruct (Z.ltb_spec c 65536); [|lia].
    + done.
Qed.

(** Decoding the UTF-8 bytes of a well-formed string that does not start
    with U+FEFF gives the string back. *)
Lemma TextDecoder_TextEncoder (s : jsstring) :
  well_formed s = true → head s ≠ Some 65279 →
  TextDecoder_decode (TextEncoder_encode s) = s.
Proof.
  intros Hwf Hbom. destruct (scalar_values_well_formed s Hwf) as (H1 & H2 & H3).
  unfold TextDecoder_decode, TextEncoder_encode.
  rewrite utf8_decode_scalars by done.
  destruct (scalar_values s) as [|p rest] eqn:Hp; [done|].
  destruct (Z.eqb_spec p 65279) as [->|_]; [|done].
  destruct Hbom. by apply H3.
Qed.

(** ** The secret cipher *)

Lemma arrayBufferToBase64_btoa (b : list byte) :
  arrayBufferToBase64 b = btoa (string_of_list_ascii (ascii_of_byte <$> b)).
Proof.
  unfold arrayBufferToBase64. rewrite binary_of_buffer.
  by change (EmptyString +:+ ?s) with s.
Qed.

Section CipherProperties.
Context {CryptoKey : Type}.
Context (AES_GCM_encrypt : CryptoKey → list byte → list byte → list byte).
Context (AES_GCM_decrypt : CryptoKey → list byte → list byte → option (list byte)).

(** [decryptData] on the base64 texts of a ciphertext and a nonce. *)
Lemma decryptData_base64 key (ciphertext nonce : list byte) :
  decryptData AES_GCM_decrypt key
    (arrayBufferToBase64 ciphertext) (arrayBufferToBase64 nonce)
  = match AES_GCM_decrypt key nonce ciphertext with
    | Some decrypted => Returns (TextDecoder_decode decrypted)
    | None => Throws OperationError
    end.
Proof.
  unfold decryptData, arrayBufferToBase64. rewrite !binary_of_buffer.
  change (EmptyString +:+ ?s) with s.
  by rewrite !base64ToArrayBuffer_btoa.
Qed.



End CipherProperties.

Lemma sample_cipher_correct (k n p : list byte) :
  sample_decrypt k n (sample_encrypt k n p) = Some p.
Proof.
  unfold sample_decrypt, sample_encrypt. cbv zeta.
  rewrite (app_assoc k n p).
  rewrite take_app_length, drop_app_length. by rewrite decide_True.
Qed.







(** ** The phishing matcher *)

Lemma script_zero n a b : script n a b → n = 0%nat → a = b.
Proof.
  induction 1 as [|x a b n _ IH| | |]; intros Hn; try discriminate.
  - done.
  - f_equal. by apply IH.
Qed.

(** The distance is zero on equal words only. *)
Lemma lev_zero a b : lev a b = 0%nat ↔ a = b.
Proof.
  split.
  - intros H. apply (script_zero (lev a b)); [apply script_lev|done].
  - intros ->. apply Nat.le_0_r. apply lev_le_script.
    induction b; by constructor.
Qed.

Lemma list_ascii_of_string_inj (s t : string) :
  list_ascii_of_string s = list_ascii_of_string t → s = t.
Proof.
  intros H.
  by rewrite <- (string_of_list_ascii_of_string s),
             <- (string_of_list_ascii_of_string t), H.
Qed.

Lemma lower_ascii_not_upper (c : ascii) :
  let n := N_of_ascii (lower_ascii c) in ¬ (65 <= n <= 90)%N.
Proof.
  unfold lower_ascii. simpl.
  pose proof (N_ascii_bounded c) as Hb.
  destruct (N.leb_spec 65 (N_of_ascii c)), (N.leb_spec (N_of_ascii c) 90);
    simpl; try lia.
  rewrite N_ascii_embedding by lia. lia.
Qed.

(** [extractDomain] returns no upper-case ASCII letter. *)
Lemma extractDomain_lower {Url : Type} (URL_hostname : Url → option string) url :
  Forall (fun c => ¬ (65 <= N_of_ascii c <= 90)%N)
         (list_ascii_of_string (extractDomain URL_hostname url)).
Proof.
  unfold extractDomain. destruct (URL_hostname url) as [h|]; [|constructor].
  induction h as [|c h IH]; simpl; constructor; [|done].
  apply lower_ascii_not_upper.
Qed.

Lemma toLowerCase_empty (s : string) : toLowerCase s = "" ↔ s = "".
Proof. by destruct s. Qed.

(** [extractDomain] is empty when the URL does not parse, and also when it
    parses with an empty hostname. *)
Lemma extractDomain_empty {Url : Type} (URL_hostname : Url → option string) url :
  extractDomain URL_hostname url = ""
  ↔ URL_hostname url = None ∨ URL_hostname url = Some "".
Proof.
  unfold extractDomain. destruct (URL_hostname url) as [h|].
  - rewrite toLowerCase_empty. split.
    + intros ->. by right.
    + by intros [[=]|[= ->]].
  - split; [by left|done].
Qed.

(** C6, as the code has it.  The two domains are the lower-cased
    hostnames, empty when the URL does not parse or has no host.  The
    answer is [Invalid URL] when either is empty; a match without warning
    when they are equal; the phishing warning naming both when their
    Levenshtein distance is 1 or 2; the plain mismatch warning for any
    larger distance. *)
Theorem checkDomainMatch_cases {Url : Type} (URL_hostname : Url → option string)
    (currentUrl storedUrl : Url) :
  let currentDomain := extractDomain URL_hostname currentUrl in
  let storedDomain := extractDomain URL_hostname storedUrl in
  let d := lev (list_ascii_of_string currentDomain)
               (list_ascii_of_string storedDomain) in
  (currentDomain = ""
   ↔ URL_hostname currentUrl = None ∨ URL_hostname currentUrl = Some "")
  ∧ (storedDomain = ""
     ↔ URL_hostname storedUrl = None ∨ URL_hostname storedUrl = Some "")
  ∧ checkDomainMatch URL_hostname currentUrl storedUrl
    = if decide (currentDomain = "" ∨ storedDomain = "") then
        {| isMatch := false; warning := Some "Invalid URL" |}
      else if decide (currentDomain = storedDomain) then
        {| isMatch := true; warning := None |}
      else if decide (0 < d ≤ 2)%nat then
        {| isMatch := false;
           warning := Some (phishing_warning currentDomain storedDomain) |}
      else {| isMatch := false; warning := Some "Domain mismatch" |}.
Proof.
  intros cur sto d.
  split; [apply extractDomain_empty|]. split; [apply extractDomain_empty|].
  unfold checkDomainMatch. fold cur. fold sto.
  rewrite levenshteinDistance_lev. fold d.
  destruct (String.eqb_spec cur "") as [Hc|Hc].
  { rewrite decide_True by auto. done. }
  destruct (String.eqb_spec sto "") as [Hs|Hs].
  { rewrite decide_True by auto. done. }
  rewrite decide_False by tauto. simpl.
  destruct (String.eqb_spec cur sto) as [He|He].
  { by rewrite decide_True. }
  rewrite decide_False by done.
  destruct (decide (0 < d ≤ 2)%nat) as [Hd|Hd];
    destruct (Z.leb_spec (Z.of_nat d) 2), (Z.ltb_spec 0 (Z.of_nat d));
    solve [done|lia].
Qed.

(** Different hostnames are at a distance of 1 at least, so that the plain
    mismatch is the case of a distance above 2. *)
Lemma distance_positive (s t : string) :
  s ≠ t → (0 < lev (list_ascii_of_string s) (list_ascii_of_string t))%nat.
Proof.
  intros Hne.
  destruct (lev (list_ascii_of_string s) (list_ascii_of_string t)) eqn:H; [|lia].
  apply lev_zero, list_ascii_of_string_inj in H. done.
Qed.

(** C6: a URL without a host, such as [about:blank], parses, and two such
    URLs have equal hostnames; the code answers [Invalid URL], where the
    specification has a match. *)
Lemma checkDomainMatch_empty_host_counterexample :
  URL_hostname_model "about:blank" = Some ""
  ∧ checkDomainMatch URL_hostname_model "about:blank" "about:blank"
    = {| isMatch := false; warning := Some "Invalid URL" |}.
Proof. by vm_compute. Qed.

(** C4, as the code has it.  For a URL parser that reads the hostnames of
    the four URLs: the same site matches without warning;
    [bank-secure.com] is at distance 7 from [bank.com] and gets the plain
    mismatch warning, like [totallydifferent.org]. *)
Theorem checkDomainMatch_scenarios (URL_hostname : string → option string) :
  URL_hostname "https://bank.com/login" = Some "bank.com" →
  URL_hostname "https://bank.com" = Some "bank.com" →
  URL_hostname "https://bank-secure.com" = Some "bank-secure.com" →
  URL_hostname "https://totallydifferent.org" = Some "totallydifferent.org" →
  checkDomainMatch URL_hostname "https://bank.com/login" "https://bank.com"
    = {| isMatch := true; warning := None |}
  ∧ levenshteinDistance "bank-secure.com" "bank.com" = Some 7
  ∧ checkDomainMatch URL_hostname "https://bank-secure.com" "https://bank.com"
    = {| isMatch := false; warning := Some "Domain mismatch" |}
  ∧ checkDomainMatch URL_hostname "https://totallydifferent.org" "https://bank.com"
    = {| isMatch := false; warning := Some "Domain mismatch" |}.
Proof.
  intros H1 H2 H3 H4. unfold checkDomainMatch, extractDomain.
  rewrite H1, H2, H3, H4. by vm_compute.
Qed.

Lemma checkDomainMatch_scenarios_witness :
  checkDomainMatch URL_hostname_model "https://bank.com/login" "https://bank.com"
    = {| isMatch := true; warning := None |}
  ∧ checkDomainMatch URL_hostname_model "https://totallydifferent.org"
      "https://bank.com"
    = {| isMatch := false; warning := Some "Domain mismatch" |}.
Proof.
  destruct (checkDomainMatch_scenarios URL_hostname_model
              eq_refl eq_refl eq_refl eq_refl) as (H1 & _ & _ & H4).
  split; [exact H1|exact H4].
Defined.

(** C4: [bank-secure.com] is not within distance 2 of [bank.com], and the
    code gives it no phishing warning. *)
Lemma checkDomainMatch_bank_secure_counterexample :
  URL_hostname_model "https://bank-secure.com" = Some "bank-secure.com"
  ∧ URL_hostname_model "https://bank.com" = Some "bank.com"
  ∧ levenshteinDistance "bank-secure.com" "bank.com" = Some 7
  ∧ checkDomainMatch URL_hostname_model "https://bank-secure.com" "https://bank.com"
    = {| isMatch := false; warning := Some "Domain mismatch" |}.
Proof. by vm_compute. Qed.

(** ** The stores and the PIN lock *)

Lemma keys_distinct :
  PIN_KEY ≠ FAILED_ATTEMPTS_KEY ∧ PIN_KEY ≠ LAST_FAILED_TIME_KEY
  ∧ PIN_KEY ≠ LOCK_TIMEOUT_KEY ∧ FAILED_ATTEMPTS_KEY ≠ LAST_FAILED_TIME_KEY
  ∧ FAILED_ATTEMPTS_KEY ≠ LOCK_TIMEOUT_KEY ∧ LAST_FAILED_TIME_KEY ≠ LOCK_TIMEOUT_KEY.
Proof. repeat split; discriminate. Qed.

(** Reading the durable or the session store after a [set]. *)
Lemma lookup_set_same (k : string) (v : jsval) (m : gmap string jsval) :
  ({[k := v]} ∪ m) !! k = Some v.
Proof. apply lookup_union_Some_l, lookup_singleton_eq. Qed.

Lemma lookup_set_other (k k' : string) (v : jsval) (m : gmap string jsval) :
  k ≠ k' → ({[k := v]} ∪ m) !! k' = m !! k'.
Proof. intros. by apply lookup_union_r, lookup_singleton_ne. Qed.

Lemma lookup_set2_first (k1 k2 : string) (v1 v2 : jsval) (m : gmap string jsval) :
  (<[k1 := v1]> {[k2 := v2]} ∪ m) !! k1 = Some v1.
Proof. apply lookup_union_Some_l, lookup_insert_eq. Qed.

Lemma lookup_set2_second (k1 k2 : string) (v1 v2 : jsval) (m : gmap string jsval) :
  k1 ≠ k2 → (<[k1 := v1]> {[k2 := v2]} ∪ m) !! k2 = Some v2.
Proof. intros. apply lookup_union_Some_l. by simplify_map_eq. Qed.

Lemma lookup_set2_other (k1 k2 k : string) (v1 v2 : jsval) (m : gmap string jsval) :
  k1 ≠ k → k2 ≠ k → (<[k1 := v1]> {[k2 := v2]} ∪ m) !! k = m !! k.
Proof. intros. apply lookup_union_r. by simplify_map_eq. Qed.

Ltac run_async :=
  unfold mbind, mret, Async_bind, Async_ret, local_get, local_set, local_remove,
    session_get, session_set, session_remove, session_clear;
  cbn [local session digests fst snd foldr].

Ltac use_keys :=
  destruct keys_distinct as (?&?&?&?&?&?).

Section PinLock.
Context (env : Env) (digest_SHA256 : list byte → list byte).
Implicit Types (w : World) (now : Z) (pin : jsstring).

(** [verifyPin] on a matching PIN. *)
Lemma verifyPin_match now pin w :
  local w !! PIN_KEY = Some (VStr (pinDigest env digest_SHA256 pin)) →
  verifyPin env digest_SHA256 now pin w
  = (true, {| local := {[FAILED_ATTEMPTS_KEY := VNum 0]} ∪ local w;
              session := {[LAST_ACTIVITY_KEY := VNum now]} ∪ session w;
              digests := S (digests w) |}).
Proof.
  intros Hpin. unfold verifyPin, hashPin, updateLastActivity. run_async.
  rewrite decide_True by done. reflexivity.
Qed.

(** [verifyPin] on any other PIN, or when there is no PIN record. *)
Lemma verifyPin_mismatch now pin w :
  local w !! PIN_KEY ≠ Some (VStr (pinDigest env digest_SHA256 pin)) →
  verifyPin env digest_SHA256 now pin w
  = (false,
     let items := <[FAILED_ATTEMPTS_KEY := VNum (count w + 1)]>
                    {[LAST_FAILED_TIME_KEY := VNum now]} in
     if MAX_FAILED_ATTEMPTS env <=? count w + 1 then
       {| local := delete PIN_KEY (delete FAILED_ATTEMPTS_KEY (items ∪ local w));
          session := ∅;
          digests := S (digests w) |}
     else
       {| local := items ∪ local w;
          session := session w;
          digests := S (digests w) |}).
Proof.
  intros Hpin. unfold verifyPin, hashPin, clearSecurityData. run_async.
  rewrite decide_False by done. run_async. fold (count w).
  by destruct (MAX_FAILED_ATTEMPTS env <=? count w + 1).
Qed.

Lemma verifyPin_result now pin w :
  (verifyPin env digest_SHA256 now pin w).1
  = bool_decide (local w !! PIN_KEY = Some (VStr (pinDigest env digest_SHA256 pin))).
Proof.
  case_bool_decide as H.
  - by rewrite verifyPin_match.
  - by rewrite verifyPin_mismatch.
Qed.


(** The operations that only read leave the stores as they are. *)
Lemma getBackoffDelay_reads w : (getBackoffDelay env w).2 = w.
Proof. unfold getBackoffDelay. run_async. by destruct (_ =? _). Qed.

Lemma isBackoffActive_reads now w : (isBackoffActive env now w).2 = w.
Proof.
  unfold isBackoffActive. run_async.
  destruct (_ =? _); [done|]. by destruct (_ <? _).
Qed.

Lemma isSessionExpired_reads now w : (isSessionExpired now w).2 = w.
Proof. reflexivity. Qed.

Lemma getKeyFromSession_reads {K : Type} (importKey : string → option K) w :
  (getKeyFromSession env importKey w).2 = w.
Proof.
  unfold getKeyFromSession. run_async.
  destruct (truthy _); [|done]. by destruct (session w !! _) as [[]|].
Qed.

(** What each operation does to the durable store. *)
Lemma run_local op w :
  local (run env digest_SHA256 op w) =
  match op with
  | OpSetPin pin => {[PIN_KEY := VStr (pinDigest env digest_SHA256 pin)]} ∪ local w
  | OpVerifyPin now pin => local (verifyPin env digest_SHA256 now pin w).2
  | OpRemovePin => delete PIN_KEY (local w)
  | OpSetLockTimeout minutes => {[LOCK_TIMEOUT_KEY := VNum minutes]} ∪ local w
  | OpClearSecurityData => delete PIN_KEY (delete FAILED_ATTEMPTS_KEY (local w))
  | _ => local w
  end.
Proof.
  destruct op; cbn [run]; try done.
  - by rewrite getBackoffDelay_reads.
  - by rewrite isBackoffActive_reads.
  - by rewrite getKeyFromSession_reads.
  - unfold getMasterKeyHash. run_async.
    destruct (truthy _); [|done]. by destruct (session w !! _) as [[]|].
Qed.


Lemma count_verifyPin_match now pin w :
  local w !! PIN_KEY = Some (VStr (pinDigest env digest_SHA256 pin)) →
  count (verifyPin env digest_SHA256 now pin w).2 = 0.
Proof.
  intros Hp. rewrite verifyPin_match by done. unfold count. cbn [snd local].
  by rewrite lookup_set_same.
Qed.

Lemma count_verifyPin_mismatch now pin w :
  local w !! PIN_KEY ≠ Some (VStr (pinDigest env digest_SHA256 pin)) →
  count (verifyPin env digest_SHA256 now pin w).2
  = if MAX_FAILED_ATTEMPTS env <=? count w + 1 then 0 else count w + 1.
Proof.
  intros Hp. rewrite verifyPin_mismatch by done. cbn [snd]. use_keys.
  destruct (MAX_FAILED_ATTEMPTS env <=? count w + 1); unfold count at 1;
    cbn [local].
  - by simplify_map_eq.
  - rewrite lookup_set2_first. simpl. by destruct (Z.eqb_spec (count w + 1) 0).
Qed.

Lemma count_clearSecurityData w : count (clearSecurityData w).2 = 0.
Proof.
  unfold clearSecurityData, count. run_async. use_keys. by simplify_map_eq.
Qed.

(** C8. The failure count goes from nonzero to zero only through a PIN
    verification that succeeds or through [clearSecurityData] (called on
    its own, or by the failed verification that reaches the maximum);
    both always leave it at zero, whatever it was. *)
Theorem count_reset_only op w :
  typed w → 0 <= count w →
  (verifies env digest_SHA256 op w ∨ clears env digest_SHA256 op w →
   count (run env digest_SHA256 op w) = 0)
  ∧ (count w ≠ 0 → count (run env digest_SHA256 op w) = 0 →
     verifies env digest_SHA256 op w ∨ clears env digest_SHA256 op w).
Proof.
  intros _ Hpos. split.
  - intros [(now & pin & -> & Hr)|[->|(now & pin & -> & Hr & Hmax)]]; cbn [run].
    + rewrite verifyPin_result in Hr. apply bool_decide_eq_true in Hr.
      by apply count_verifyPin_match.
    + apply count_clearSecurityData.
    + rewrite verifyPin_result in Hr. apply bool_decide_eq_false in Hr.
      rewrite count_verifyPin_mismatch by done.
      destruct (Z.leb_spec (MAX_FAILED_ATTEMPTS env) (count w + 1)); [done|lia].
  - intros Hnz H0. unfold count at 1 in H0. rewrite run_local in H0. use_keys.
    destruct op as [| | |now pin| | | | | | | | | | | | |];
      try (by (fold (count w) in H0));
      try (by (rewrite lookup_set_other in H0 by done; fold (count w) in H0)).
    + (* verifyPin *)
      fold (count (verifyPin env digest_SHA256 now pin w).2) in H0.
      destruct (decide (local w !! PIN_KEY
                        = Some (VStr (pinDigest env digest_SHA256 pin)))) as [Hp|Hp].
      * left. exists now, pin. split; [done|].
        rewrite verifyPin_result. by apply bool_decide_eq_true.
      * right. right. exists now, pin. split; [done|].
        rewrite verifyPin_result. split; [by apply bool_decide_eq_false|].
        rewrite count_verifyPin_mismatch in H0 by done.
        destruct (Z.leb_spec (MAX_FAILED_ATTEMPTS env) (count w + 1)); [done|lia].
    + (* removePin *)
      rewrite lookup_delete_ne in H0 by done. by fold (count w) in H0.
    + (* clearSecurityData *)
      right. by left.
Qed.


(** C9. Without a PIN record every [verifyPin] fails, whatever the PIN:
    below the maximum it stores the incremented count and the time of the
    failure and leaves the session store alone; at the maximum
    [clearSecurityData] runs, which removes the failed-attempt entry and
    empties the session store, the cached session key included. *)
Theorem verifyPin_without_record {K : Type} (importKey : string → option K)
    now pin w :
  typed w → local w !! PIN_KEY = None →
  (verifyPin env digest_SHA256 now pin w).1 = false
  ∧ (count w + 1 < MAX_FAILED_ATTEMPTS env →
     local (verifyPin env digest_SHA256 now pin w).2 !! FAILED_ATTEMPTS_KEY
       = Some (VNum (count w + 1))
     ∧ local (verifyPin env digest_SHA256 now pin w).2 !! LAST_FAILED_TIME_KEY
       = Some (VNum now)
     ∧ session (verifyPin env digest_SHA256 now pin w).2 = session w)
  ∧ (MAX_FAILED_ATTEMPTS env <= count w + 1 →
     local (verifyPin env digest_SHA256 now pin w).2 !! FAILED_ATTEMPTS_KEY = None
     ∧ session (verifyPin env digest_SHA256 now pin w).2 = ∅
     ∧ (getKeyFromSession env importKey
          (verifyPin env digest_SHA256 now pin w).2).1 = None).
Proof.
  intros _ Hnone.
  assert (local w !! PIN_KEY ≠ Some (VStr (pinDigest env digest_SHA256 pin)))
    as Hp by (by rewrite Hnone).
  rewrite verifyPin_mismatch by done. cbn [fst snd]. use_keys.
  split; [done|]. split; intros Hmax.
  - destruct (Z.leb_spec (MAX_FAILED_ATTEMPTS env) (count w + 1)); [lia|].
    cbn [local session]. by simplify_map_eq.
  - destruct (Z.leb_spec (MAX_FAILED_ATTEMPTS env) (count w + 1)); [|lia].
    cbn [local session]. split; [by simplify_map_eq|]. split; [done|].
    unfold getKeyFromSession. run_async. by rewrite lookup_empty.
Qed.

(** C3, as the code has it.  The failed verification that reaches the
    maximum removes the PIN record and the failure count, so that [hasPin]
    answers false and the count reads 0; the time of that last failure
    stays in the durable store. *)
Theorem verifyPin_lockout now pin w :
  typed w →
  local w !! PIN_KEY ≠ Some (VStr (pinDigest env digest_SHA256 pin)) →
  count w + 1 = MAX_FAILED_ATTEMPTS env →
  (verifyPin env digest_SHA256 now pin w).1 = false
  ∧ local (verifyPin env digest_SHA256 now pin w).2 !! PIN_KEY = None
  ∧ local (verifyPin env digest_SHA256 now pin w).2 !! FAILED_ATTEMPTS_KEY = None
  ∧ count (verifyPin env digest_SHA256 now pin w).2 = 0
  ∧ (hasPin (verifyPin env digest_SHA256 now pin w).2).1 = false
  ∧ local (verifyPin env digest_SHA256 now pin w).2 !! LAST_FAILED_TIME_KEY
      = Some (VNum now).
Proof.
  intros _ Hp Hmax. rewrite verifyPin_mismatch by done. cbn [fst snd]. use_keys.
  destruct (Z.leb_spec (MAX_FAILED_ATTEMPTS env) (count w + 1)); [|lia].
  unfold hasPin, count. run_async. by simplify_map_eq.
Qed.


(** The backoff delay and gate, for any configured ceiling. *)
Lemma getBackoffDelay_value w :
  getBackoffDelay env w
  = (if count w =? 0 then 0
     else Z.min (2 ^ count w) (MAX_BACKOFF_SECONDS env) * 1000, w).
Proof.
  unfold getBackoffDelay. run_async. fold (count w). by destruct (count w =? 0).
Qed.

Lemma isBackoffActive_value now w :
  isBackoffActive env now w
  = (let unlockTime := lastFailureTimestamp w
                       + Z.min (2 ^ count w) (MAX_BACKOFF_SECONDS env) * 1000 in
     if (count w =? 0) || negb (now <? unlockTime)
     then {| active := false; remainingMs := 0 |}
     else {| active := true; remainingMs := unlockTime - now |}, w).
Proof.
  unfold isBackoffActive. run_async.
  fold (count w). fold (lastFailureTimestamp w).
  destruct (count w =? 0); [done|]. cbn [orb]. by destruct (_ <? _).
Qed.

Lemma MAX_BACKOFF_SECONDS_default :
  VITE_MAX_BACKOFF_SECONDS env = None → MAX_BACKOFF_SECONDS env = 300.
Proof. unfold MAX_BACKOFF_SECONDS. by intros ->. Qed.

(** C5. With the default ceiling, after [n >= 1] recorded failures the
    delay is [min(2^n, 300)] seconds, in milliseconds, and the backoff is
    active exactly before the last failure time plus that delay; with no
    failure the delay is 0 and the backoff is never active. *)
Theorem backoff_delay now w :
  typed w → 0 <= count w → VITE_MAX_BACKOFF_SECONDS env = None →
  (1 <= count w →
   (getBackoffDelay env w).1 = Z.min (2 ^ count w) 300 * 1000
   ∧ (active (isBackoffActive env now w).1 = true
      ↔ now < lastFailureTimestamp w + Z.min (2 ^ count w) 300 * 1000))
  ∧ (count w = 0 →
     (getBackoffDelay env w).1 = 0
     ∧ active (isBackoffActive env now w).1 = false).
Proof.
  intros _ Hpos Henv. rewrite getBackoffDelay_value, isBackoffActive_value.
  rewrite (MAX_BACKOFF_SECONDS_default Henv). cbn [fst].
  split.
  - intros Hn. destruct (Z.eqb_spec (count w) 0) as [|_]; [lia|].
    split; [done|]. cbn [orb].
    destruct (Z.ltb_spec now
                (lastFailureTimestamp w + Z.min (2 ^ count w) 300 * 1000));
      cbn [negb active]; split; (done || lia).
  - intros ->. done.
Qed.

(** C2. While the backoff is active the unlock handler returns before
    [verifyPin]: the stores, and with them the failure count, the time of
    the last failure and the number of digests computed, are unchanged,
    and the remaining wait goes to the component state. *)
Theorem handlePinUnlock_rejected {K : Type}
    (importKey : string → option (Settled K)) now now' ui w :
  typed w → 1 <= count w → VITE_MAX_BACKOFF_SECONDS env = None →
  now < lastFailureTimestamp w + Z.min (2 ^ count w) 300 * 1000 →
  handlePinUnlock env digest_SHA256 importKey now now' ui w
  = (let remaining :=
       lastFailureTimestamp w + Z.min (2 ^ count w) 300 * 1000 - now in
     setError ("Brute-force protection: Please wait "
                 +:+ pretty (ceil_div_1000 remaining) +:+ "s")
       (setBackoffRemaining remaining ui), w).
Proof.
  intros _ Hn Henv Hnow. unfold handlePinUnlock.
  unfold mbind at 1. unfold Async_bind at 1.
  rewrite isBackoffActive_value, (MAX_BACKOFF_SECONDS_default Henv).
  destruct (Z.eqb_spec (count w) 0) as [|_]; [lia|]. cbn [orb].
  destruct (Z.ltb_spec now
              (lastFailureTimestamp w + Z.min (2 ^ count w) 300 * 1000)); [|lia].
  reflexivity.
Qed.

(** C1, as the code has it.  The session is reported expired exactly
    when [now] is past [lastActivity + timeoutMinutes * 60000]: at that
    instant it is not yet expired, one millisecond later it is. *)
Theorem isSessionExpired_strict now w :
  typed w →
  ((isSessionExpired now w).1 = true
   ↔ lastActivity w + (getLockTimeout w).1 * 60000 < now)
  ∧ (isSessionExpired (lastActivity w + (getLockTimeout w).1 * 60000) w).1 = false
  ∧ (isSessionExpired (lastActivity w + (getLockTimeout w).1 * 60000 + 1) w).1 = true.
Proof.
  intros _. unfold isSessionExpired, getLockTimeout. run_async.
  fold (lastActivity w).
  set (timeout := num_or (local w !! LOCK_TIMEOUT_KEY)
                         SECURITY_VALUES.DEFAULT_LOCK_TIMEOUT_MINS).
  repeat split.
  - intros H. apply Z.ltb_lt in H. lia.
  - intros H. apply Z.ltb_lt. lia.
  - apply Z.ltb_ge. lia.
  - apply Z.ltb_lt. lia.
Qed.


Lemma verifyPin_typed now pin w :
  typed w → typed (verifyPin env digest_SHA256 now pin w).2.
Proof.
  intros (Hf & Hl & Ht & Ha). use_keys. unfold typed.
  destruct (decide (local w !! PIN_KEY
                    = Some (VStr (pinDigest env digest_SHA256 pin)))) as [Hp|Hp].
  - rewrite verifyPin_match by done. cbn [snd local session].
    by rewrite !lookup_set_same, !lookup_set_other by done.
  - rewrite verifyPin_mismatch by done. cbn [snd].
    destruct (MAX_FAILED_ATTEMPTS env <=? count w + 1); cbn [local session].
    + repeat split; simplify_map_eq; rewrite ?lookup_set2_other by done;
        solve [exact I|done].
    + by rewrite lookup_set2_first, lookup_set2_second, lookup_set2_other
        by done.
Qed.

(** The stores stay well typed under every operation, as long as the
    session key is not configured to live in the last-activity entry. *)
Lemma run_typed op w :
  SESSION_KEY_NAME env ≠ LAST_ACTIVITY_KEY →
  typed w → typed (run env digest_SHA256 op w).
Proof.
  intros Hname Hw.
  destruct op as [| | |now pin| | | | | | | | | | | | |]; cbn [run];
    rewrite ?getBackoffDelay_reads, ?isBackoffActive_reads,
            ?getKeyFromSession_reads;
    try done; try (by apply verifyPin_typed).
  all: destruct Hw as (Hf & Hl & Ht & Ha); use_keys;
    assert ("masterKeyHash" ≠ LAST_ACTIVITY_KEY) by discriminate;
    unfold typed, setPin, hashPin, removePin, setLockTimeout, updateLastActivity,
      clearSecurityData, storeKeyInSession, clearKeyFromSession, secureLogout,
      storeMasterKeyHash, getMasterKeyHash;
    run_async.
  all: try (destruct (truthy _); [destruct (session w !! "masterKeyHash") as [[]|]|]).
  all: rewrite ?lookup_set_same, ?lookup_set_other, ?lookup_delete_ne by done.
  all: by simplify_map_eq.
Qed.

(** A series of attempts that all fail, from [n] recorded failures: below
    the maximum each one is counted and the PIN record and the session
    store are left alone; the one that reaches the maximum removes the
    PIN record and the count and empties the session store. *)
Lemma attempts_failing (calls : list (Z * jsstring)) w :
  Forall (fun call => local w !! PIN_KEY
                      ≠ Some (VStr (pinDigest env digest_SHA256 call.2))) calls →
  0 <= count w →
  (count w + Z.of_nat (length calls) < MAX_FAILED_ATTEMPTS env →
   count (attempts env digest_SHA256 calls w) = count w + Z.of_nat (length calls)
   ∧ local (attempts env digest_SHA256 calls w) !! PIN_KEY = local w !! PIN_KEY
   ∧ session (attempts env digest_SHA256 calls w) = session w)
  ∧ (calls ≠ [] → count w + Z.of_nat (length calls) = MAX_FAILED_ATTEMPTS env →
     local (attempts env digest_SHA256 calls w) !! FAILED_ATTEMPTS_KEY = None
     ∧ local (attempts env digest_SHA256 calls w) !! PIN_KEY = None
     ∧ session (attempts env digest_SHA256 calls w) = ∅).
Proof.
  revert w. induction calls as [|[now pin] calls IH]; intros w Hfail Hpos.
  { split; [intros _; repeat split; simpl; lia|done]. }
  apply Forall_cons in Hfail as [Hp Hfail]. cbn [snd] in Hp.
  cbn [attempts length]. use_keys.
  destruct (Z.leb_spec (MAX_FAILED_ATTEMPTS env) (count w + 1)) as [Hmax|Hmax].
  - (* this attempt reaches the maximum *)
    split; [lia|]. intros _ Hlen.
    destruct calls as [|c calls]; [|simpl in Hlen; lia].
    cbn [attempts]. rewrite verifyPin_mismatch by done. cbn [snd].
    destruct (Z.leb_spec (MAX_FAILED_ATTEMPTS env) (count w + 1)); [|lia].
    cbn [local session]. repeat split; by simplify_map_eq.
  - (* this attempt is counted *)
    set (w' := (verifyPin env digest_SHA256 now pin w).2).
    assert (count w' = count w + 1) as Hcount.
    { subst w'. rewrite count_verifyPin_mismatch by done.
      by destruct (Z.leb_spec (MAX_FAILED_ATTEMPTS env) (count w + 1)); [lia|]. }
    assert (local w' !! PIN_KEY = local w !! PIN_KEY ∧ session w' = session w)
      as [Hpin Hsess].
    { subst w'. rewrite verifyPin_mismatch by done. cbn [snd].
      destruct (Z.leb_spec (MAX_FAILED_ATTEMPTS env) (count w + 1)); [lia|].
      cbn [local session]. split; [|done].
      by rewrite lookup_set2_other by done. }
    destruct (IH w') as [IHlow IHmax]; [by rewrite Hpin|lia|].
    fold w'. split.
    + intros Hlen. destruct IHlow as (Hc & Hk & Hs); [lia|].
      split; [rewrite Hc; lia|]. split; [by rewrite Hk|by rewrite Hs].
    + intros _ Hlen. apply IHmax; [|lia].
      intros ->. simpl in Hlen. lia.
Qed.

End PinLock.

(** *** The PIN lock on the sample states *)

Lemma typed_w_locked : typed w_locked.
Proof. vm_compute. tauto. Defined.

Lemma typed_w_last_chance : typed w_last_chance.
Proof. vm_compute. tauto. Defined.

Lemma typed_w_fresh : typed w_fresh.
Proof. vm_compute. tauto. Defined.

(** C1: at the boundary instant the code reports the session as not
    expired, where the specification has it expired. *)
Lemma isSessionExpired_boundary_counterexample :
  lastActivity w_fresh = 1000000
  ∧ (getLockTimeout w_fresh).1 = 5
  ∧ (isSessionExpired (1000000 + 5 * 60000) w_fresh).1 = false.
Proof. by vm_compute. Qed.

Lemma isSessionExpired_strict_witness :
  (isSessionExpired 1300000 w_fresh).1 = false
  ∧ (isSessionExpired 1300001 w_fresh).1 = true.
Proof.
  destruct (isSessionExpired_strict 1300001 w_fresh typed_w_fresh)
    as (_ & H0 & H1).
  split; [exact H0|exact H1].
Defined.

(** C2 on the locked sample: 2 seconds after the third failure, 7 of the
    8 seconds are left. *)
Lemma handlePinUnlock_rejected_witness :
  handlePinUnlock default_env sample_digest (fun jwk : string => Some (Fulfilled jwk)) 2000 2001
    ui_unlock w_locked
  = (setError "Brute-force protection: Please wait 7s"
       (setBackoffRemaining 7000 ui_unlock), w_locked).
Proof.
  refine (handlePinUnlock_rejected default_env sample_digest
            (fun jwk : string => Some (Fulfilled jwk)) 2000 2001 ui_unlock w_locked
            typed_w_locked _ eq_refl _); by vm_compute.
Defined.

(** C3: the fifth failure leaves the time of that failure behind, where
    the specification has the whole failed-attempt state wiped. *)
Lemma verifyPin_lockout_counterexample :
  count w_last_chance + 1 = MAX_FAILED_ATTEMPTS default_env
  ∧ (verifyPin default_env sample_digest 2000 [48; 48; 48; 48] w_last_chance).1
    = false
  ∧ local (verifyPin default_env sample_digest 2000 [48; 48; 48; 48]
             w_last_chance).2 !! LAST_FAILED_TIME_KEY = Some (VNum 2000)
  ∧ lastFailureTimestamp
      (verifyPin default_env sample_digest 2000 [48; 48; 48; 48] w_last_chance).2
    = 2000.
Proof. by vm_compute. Qed.

Lemma verifyPin_lockout_witness :
  (hasPin (verifyPin default_env sample_digest 2000 [48; 48; 48; 48]
             w_last_chance).2).1 = false
  ∧ count (verifyPin default_env sample_digest 2000 [48; 48; 48; 48]
             w_last_chance).2 = 0.
Proof.
  destruct (verifyPin_lockout default_env sample_digest 2000 [48; 48; 48; 48]
              w_last_chance typed_w_last_chance)
    as (_ & _ & _ & Hc & Hp & _); [by vm_compute|by vm_compute|].
  split; [exact Hp|exact Hc].
Defined.

(** C5 on the locked sample: three failures make 8 seconds. *)
Lemma backoff_delay_witness :
  (getBackoffDelay default_env w_locked).1 = 8000
  ∧ (active (isBackoffActive default_env 8999 w_locked).1 = true
     ↔ 8999 < 9000).
Proof.
  destruct (backoff_delay default_env 8999 w_locked typed_w_locked)
    as [H _]; [by vm_compute|reflexivity|].
  apply H. by vm_compute.
Defined.

(** C8 on the locked sample: the right PIN brings the count from 3 to 0. *)
Lemma count_reset_only_witness :
  count (run default_env sample_digest (OpVerifyPin 2000 [49; 50; 51; 52])
           w_locked) = 0.
Proof.
  destruct (count_reset_only default_env sample_digest
              (OpVerifyPin 2000 [49; 50; 51; 52]) w_locked typed_w_locked)
    as [H _]; [by vm_compute|].
  apply H. left. exists 2000, [49; 50; 51; 52]. split; [reflexivity|by vm_compute].
Defined.

(** C9 on the fresh sample: no PIN record, the first failure is counted. *)
Lemma verifyPin_without_record_witness :
  (verifyPin default_env sample_digest 2000 [49; 50; 51; 52] w_fresh).1 = false
  ∧ local (verifyPin default_env sample_digest 2000 [49; 50; 51; 52] w_fresh).2
      !! FAILED_ATTEMPTS_KEY = Some (VNum 1).
Proof.
  destruct (verifyPin_without_record default_env sample_digest
              (fun jwk : string => Some jwk) 2000 [49; 50; 51; 52] w_fresh
              typed_w_fresh eq_refl)
    as (Hr & Hlow & _).
  split; [exact Hr|]. apply Hlow. by vm_compute.
Defined.

(** * Further properties *)

(** ** The PIN record *)

Lemma hex_of_bytes_length (bs : list byte) :
  String.length (hex_of_bytes bs) = (2 * length bs)%nat.
Proof.
  induction bs as [|b bs IH]; [done|].
  change (hex_of_bytes (b :: bs)) with (hex_of_byte b +:+ hex_of_bytes bs).
  unfold hex_of_byte. simpl. change ("" +:+ ?s) with s. rewrite IH. lia.
Qed.

Section PinRecord.
Context (env : Env) (digest_SHA256 : list byte → list byte).
Implicit Types (w : World) (now : Z) (pin : jsstring).

Lemma setPin_value pin w :
  setPin env digest_SHA256 pin w
  = (tt, {| local := {[PIN_KEY := VStr (pinDigest env digest_SHA256 pin)]} ∪ local w;
            session := session w;
            digests := S (digests w) |}).
Proof. reflexivity. Qed.

(** X1. After [setPin(pin)], [verifyPin] succeeds exactly on the PINs
    that have the digest of [pin]; on [pin] itself it leaves the failure
    count at 0 and the last activity at the time of the call. *)
Theorem setPin_verifyPin now pin pin' w :
  ((verifyPin env digest_SHA256 now pin' (setPin env digest_SHA256 pin w).2).1 = true
   ↔ pinDigest env digest_SHA256 pin' = pinDigest env digest_SHA256 pin)
  ∧ (verifyPin env digest_SHA256 now pin (setPin env digest_SHA256 pin w).2).1 = true
  ∧ count (verifyPin env digest_SHA256 now pin (setPin env digest_SHA256 pin w).2).2 = 0
  ∧ lastActivity (verifyPin env digest_SHA256 now pin
                    (setPin env digest_SHA256 pin w).2).2 = now.
Proof.
  rewrite setPin_value. cbn [snd].
  set (w1 := {| local := _ |}).
  assert (local w1 !! PIN_KEY = Some (VStr (pinDigest env digest_SHA256 pin))) as Hp.
  { subst w1. cbn [local]. apply lookup_set_same. }
  split; [|split; [|split]].
  - rewrite verifyPin_result, Hp. rewrite bool_decide_eq_true.
    split; [by intros [= ->]|by intros ->].
  - rewrite verifyPin_result. by apply bool_decide_eq_true.
  - by apply count_verifyPin_match.
  - rewrite verifyPin_match by done. unfold lastActivity. cbn [snd session].
    rewrite lookup_set_same. cbn [num_or]. by destruct (Z.eqb_spec now 0).
Qed.

(** X2. With a digest of 32 bytes, as SHA-256 gives, the PIN record that
    [setPin] stores is a text of 64 characters, so that [hasPin] answers
    true after it; after [removePin] it answers false. *)
Theorem setPin_hasPin pin w :
  (∀ data, length (digest_SHA256 data) = 32%nat) →
  local (setPin env digest_SHA256 pin w).2 !! PIN_KEY
    = Some (VStr (pinDigest env digest_SHA256 pin))
  ∧ String.length (pinDigest env digest_SHA256 pin) = 64%nat
  ∧ (hasPin (setPin env digest_SHA256 pin w).2).1 = true
  ∧ (hasPin (removePin (setPin env digest_SHA256 pin w).2).2).1 = false.
Proof.
  intros Hlen.
  assert (String.length (pinDigest env digest_SHA256 pin) = 64%nat) as H64.
  { unfold pinDigest. rewrite hex_of_bytes_length, Hlen. done. }
  rewrite setPin_value. unfold hasPin, removePin. run_async.
  rewrite lookup_set_same. split; [done|]. split; [done|]. split.
  - cbn [truthy]. destruct (pinDigest env digest_SHA256 pin); [done|done].
  - by rewrite lookup_delete_eq.
Qed.

(** X3. [setPin] and [removePin] leave the failed-attempt state alone:
    a backoff that is running keeps running under a new PIN. *)
Theorem setPin_keeps_failures now pin w :
  count (setPin env digest_SHA256 pin w).2 = count w
  ∧ lastFailureTimestamp (setPin env digest_SHA256 pin w).2 = lastFailureTimestamp w
  ∧ (isBackoffActive env now (setPin env digest_SHA256 pin w).2).1
    = (isBackoffActive env now w).1
  ∧ count (removePin w).2 = count w
  ∧ lastFailureTimestamp (removePin w).2 = lastFailureTimestamp w
  ∧ (isBackoffActive env now (removePin w).2).1 = (isBackoffActive env now w).1.
Proof.
  use_keys.
  assert (count (setPin env digest_SHA256 pin w).2 = count w) as Hc.
  { rewrite setPin_value. unfold count. cbn [snd local].
    by rewrite lookup_set_other. }
  assert (lastFailureTimestamp (setPin env digest_SHA256 pin w).2
          = lastFailureTimestamp w) as Hl.
  { rewrite setPin_value. unfold lastFailureTimestamp. cbn [snd local].
    by rewrite lookup_set_other. }
  assert (count (removePin w).2 = count w) as Hc'.
  { unfold removePin, count. run_async. by rewrite lookup_delete_ne. }
  assert (lastFailureTimestamp (removePin w).2 = lastFailureTimestamp w) as Hl'.
  { unfold removePin, lastFailureTimestamp. run_async. by rewrite lookup_delete_ne. }
  rewrite !isBackoffActive_value. cbn [fst]. rewrite Hc, Hl, Hc', Hl'. done.
Qed.

End PinRecord.

(** ** The backoff *)

Section Backoff.
Context (env : Env) (digest_SHA256 : list byte → list byte).
Implicit Types (w : World) (now : Z) (pin : jsstring).

(** X4. The backoff delay never decreases as failures accumulate, and it
    stays between 0 and the configured ceiling. *)
Theorem getBackoffDelay_monotone w w' :
  0 <= MAX_BACKOFF_SECONDS env → 0 <= count w <= count w' →
  0 <= (getBackoffDelay env w).1 <= (getBackoffDelay env w').1
  ∧ (getBackoffDelay env w').1 <= MAX_BACKOFF_SECONDS env * 1000.
Proof.
  intros Hmax [H0 Hle]. rewrite !getBackoffDelay_value. cbn [fst].
  assert (0 < 2 ^ count w) by (apply Z.pow_pos_nonneg; lia).
  assert (0 < 2 ^ count w') by (apply Z.pow_pos_nonneg; lia).
  assert (2 ^ count w <= 2 ^ count w') by (apply Z.pow_le_mono_r; lia).
  destruct (Z.eqb_spec (count w) 0), (Z.eqb_spec (count w') 0); lia.
Qed.

(** X5. The backoff gate is closed only before the last failure time plus
    the delay: the wait it reports is positive and is what is left until
    then, at most the delay once the last failure is in the past; and from
    the last failure time plus the ceiling the gate is open whatever the
    count. *)
Theorem isBackoffActive_bounded now w :
  (active (isBackoffActive env now w).1 = true →
   0 < remainingMs (isBackoffActive env now w).1
   ∧ remainingMs (isBackoffActive env now w).1
     = lastFailureTimestamp w + (getBackoffDelay env w).1 - now
   ∧ (lastFailureTimestamp w <= now →
      remainingMs (isBackoffActive env now w).1 <= (getBackoffDelay env w).1))
  ∧ (active (isBackoffActive env now w).1 = false →
     remainingMs (isBackoffActive env now w).1 = 0)
  ∧ (lastFailureTimestamp w + MAX_BACKOFF_SECONDS env * 1000 <= now →
     active (isBackoffActive env now w).1 = false).
Proof.
  rewrite isBackoffActive_value, getBackoffDelay_value. cbn [fst]. cbv zeta.
  destruct (Z.eqb_spec (count w) 0) as [H0|H0]; cbn [orb active remainingMs].
  { repeat split; (done || lia). }
  destruct (Z.ltb_spec now
              (lastFailureTimestamp w
               + Z.min (2 ^ count w) (MAX_BACKOFF_SECONDS env) * 1000));
    cbn [negb active remainingMs]; repeat split; (done || lia).
Qed.

(** X6. A failed [verifyPin] below the maximum starts the next backoff at
    the time of the call: the delay is that of the incremented count, and
    the gate is closed exactly until that time plus the delay. *)
Theorem verifyPin_failure_backoff now t pin w :
  local w !! PIN_KEY ≠ Some (VStr (pinDigest env digest_SHA256 pin)) →
  0 <= count w → count w + 1 < MAX_FAILED_ATTEMPTS env →
  (getBackoffDelay env (verifyPin env digest_SHA256 now pin w).2).1
  = Z.min (2 ^ (count w + 1)) (MAX_BACKOFF_SECONDS env) * 1000
  ∧ (active (isBackoffActive env t (verifyPin env digest_SHA256 now pin w).2).1 = true
     ↔ t < now + Z.min (2 ^ (count w + 1)) (MAX_BACKOFF_SECONDS env) * 1000).
Proof.
  intros Hp H0 Hmax.
  assert (count (verifyPin env digest_SHA256 now pin w).2 = count w + 1) as Hc.
  { rewrite count_verifyPin_mismatch by done.
    by destruct (Z.leb_spec (MAX_FAILED_ATTEMPTS env) (count w + 1)); [lia|]. }
  assert (lastFailureTimestamp (verifyPin env digest_SHA256 now pin w).2 = now) as Hl.
  { rewrite verifyPin_mismatch by done. cbn [snd]. use_keys.
    destruct (Z.leb_spec (MAX_FAILED_ATTEMPTS env) (count w + 1)); [lia|].
    unfold lastFailureTimestamp. cbn [local].
    rewrite lookup_set2_second by done. cbn [num_or].
    by destruct (Z.eqb_spec now 0). }
  rewrite getBackoffDelay_value, isBackoffActive_value. cbn [fst]. cbv zeta.
  rewrite Hc, Hl.
  destruct (Z.eqb_spec (count w + 1) 0); [lia|]. split; [done|]. cbn [orb].
  destruct (Z.ltb_spec t
              (now + Z.min (2 ^ (count w + 1)) (MAX_BACKOFF_SECONDS env) * 1000));
    cbn [negb active]; split; (done || lia).
Qed.

End Backoff.

(** ** The unlock handler *)

Section Unlock.
Context (env : Env) (digest_SHA256 : list byte → list byte).
Context {K : Type} (importKey : string → option (Settled K)).
Implicit Types (w : World) (now : Z) (ui : UI).

(** The handler once the backoff gate is open. *)
Lemma handlePinUnlock_open now now' ui w :
  active (isBackoffActive env now w).1 = false →
  handlePinUnlock env digest_SHA256 importKey now now' ui w
  = (let w1 := (verifyPin env digest_SHA256 now' (pin ui) w).2 in
     if (verifyPin env digest_SHA256 now' (pin ui) w).1 then
       match (getKeyFromSession env importKey w1).1 with
       | Some (Fulfilled _) => setScreen main (loadSecrets ui)
       | Some Rejected => ui
       | None => setScreen login (setError "Session expired. Please login again." ui)
       end
     else
       let waitTime := (getBackoffDelay env w1).1 in
       if 0 <? waitTime then
         setInputPin []
           (setError ("Invalid PIN. Backoff active: "
                        +:+ pretty (waitTime / 1000) +:+ "s")
              (setBackoffRemaining waitTime ui))
       else
         setInputPin []
           (setError "Invalid PIN. 5 failed attempts will clear data." ui),
     (verifyPin env digest_SHA256 now' (pin ui) w).2).
Proof.
  intros Hopen. unfold handlePinUnlock.
  unfold mbind at 1. unfold Async_bind at 1.
  destruct (isBackoffActive env now w) as [backoff w0] eqn:Hb.
  assert (w0 = w) as -> by (by rewrite <- (isBackoffActive_reads env now w), Hb).
  cbn [fst] in Hopen. rewrite Hopen.
  unfold mbind at 1. unfold Async_bind at 1.
  destruct (verifyPin env digest_SHA256 now' (pin ui) w) as [valid w1].
  cbn [fst snd]. cbv zeta. destruct valid.
  - unfold mbind, Async_bind.
    destruct (getKeyFromSession env importKey w1) as [key w2] eqn:Hk.
    assert (w2 = w1) as -> by (by rewrite <- (getKeyFromSession_reads env importKey w1), Hk).
    cbn [fst]. by destruct key as [[]|].
  - unfold mbind, Async_bind.
    destruct (getBackoffDelay env w1) as [waitTime w2] eqn:Hd.
    assert (w2 = w1) as -> by (by rewrite <- (getBackoffDelay_reads env w1), Hd).
    cbn [fst]. by destruct (0 <? waitTime).
Qed.

(** X7. With the gate open and the stored PIN entered, the handler resets
    the failure count and records the activity, whatever becomes of the
    session key.  It shows the vault when the session holds a key that
    imports, and sends the user to the login screen with the
    session-expired message when there is no key text or the text does
    not parse; when the text parses and the import rejects, the handler
    throws after the verification and the component state stays as it
    was. *)
Theorem handlePinUnlock_accepted now now' ui w :
  typed w → 0 <= count w →
  SESSION_KEY_NAME env ≠ LAST_ACTIVITY_KEY →
  active (isBackoffActive env now w).1 = false →
  local w !! PIN_KEY = Some (VStr (pinDigest env digest_SHA256 (pin ui))) →
  (handlePinUnlock env digest_SHA256 importKey now now' ui w).1
  = match (getKeyFromSession env importKey w).1 with
    | Some (Fulfilled _) => setScreen main (loadSecrets ui)
    | Some Rejected => ui
    | None => setScreen login (setError "Session expired. Please login again." ui)
    end
  ∧ count (handlePinUnlock env digest_SHA256 importKey now now' ui w).2 = 0
  ∧ lastActivity (handlePinUnlock env digest_SHA256 importKey now now' ui w).2 = now'
  ∧ local (handlePinUnlock env digest_SHA256 importKey now now' ui w).2 !! PIN_KEY
    = local w !! PIN_KEY.
Proof.
  intros _ _ Hname Hopen Hp. rewrite handlePinUnlock_open by done.
  rewrite verifyPin_match by done. cbn [fst snd]. cbv zeta. use_keys.
  split; [|split; [|split]].
  - unfold getKeyFromSession. run_async.
    rewrite lookup_set_other by (by apply not_eq_sym).
    destruct (truthy _); [|done]. by destruct (session w !! _) as [[]|].
  - unfold count. cbn [local]. by rewrite lookup_set_same.
  - unfold lastActivity. cbn [session]. rewrite lookup_set_same. cbn [num_or].
    by destruct (Z.eqb_spec now' 0).
  - cbn [local]. by rewrite lookup_set_other.
Qed.

(** X8. With the gate open, a wrong PIN below the maximum is counted; the
    handler empties the PIN field, stays on its screen and reports the
    delay of the new count, in seconds, as the next backoff. *)
Theorem handlePinUnlock_invalid now now' ui w :
  active (isBackoffActive env now w).1 = false →
  local w !! PIN_KEY ≠ Some (VStr (pinDigest env digest_SHA256 (pin ui))) →
  0 <= count w → count w + 1 < MAX_FAILED_ATTEMPTS env →
  0 < MAX_BACKOFF_SECONDS env →
  (handlePinUnlock env digest_SHA256 importKey now now' ui w).1
  = (let delaySeconds := Z.min (2 ^ (count w + 1)) (MAX_BACKOFF_SECONDS env) in
     setInputPin []
       (setError ("Invalid PIN. Backoff active: " +:+ pretty delaySeconds +:+ "s")
          (setBackoffRemaining (delaySeconds * 1000) ui)))
  ∧ count (handlePinUnlock env digest_SHA256 importKey now now' ui w).2 = count w + 1
  ∧ lastFailureTimestamp (handlePinUnlock env digest_SHA256 importKey now now' ui w).2
    = now'
  ∧ local (handlePinUnlock env digest_SHA256 importKey now now' ui w).2 !! PIN_KEY
    = local w !! PIN_KEY
  ∧ session (handlePinUnlock env digest_SHA256 importKey now now' ui w).2 = session w.
Proof.
  intros Hopen Hp H0 Hmax Hceil. rewrite handlePinUnlock_open by done.
  cbn [fst snd]. cbv zeta.
  rewrite verifyPin_result, bool_decide_eq_false_2 by done.
  rewrite getBackoffDelay_value. cbn [fst].
  assert (count (verifyPin env digest_SHA256 now' (pin ui) w).2 = count w + 1) as Hc.
  { rewrite count_verifyPin_mismatch by done.
    by destruct (Z.leb_spec (MAX_FAILED_ATTEMPTS env) (count w + 1)); [lia|]. }
  rewrite Hc. destruct (Z.eqb_spec (count w + 1) 0); [lia|].
  assert (0 < 2 ^ (count w + 1)) by (apply Z.pow_pos_nonneg; lia).
  destruct (Z.ltb_spec 0 (Z.min (2 ^ (count w + 1)) (MAX_BACKOFF_SECONDS env) * 1000));
    [|lia].
  rewrite Z.div_mul by done. split; [done|]. split; [done|].
  rewrite verifyPin_mismatch by done. cbn [snd]. use_keys.
  destruct (Z.leb_spec (MAX_FAILED_ATTEMPTS env) (count w + 1)); [lia|].
  unfold lastFailureTimestamp. cbn [local session].
  rewrite lookup_set2_second, lookup_set2_other by done. cbn [num_or].
  by destruct (Z.eqb_spec now' 0).
Qed.

(** X9. The wrong PIN that reaches the maximum wipes the PIN record, the
    count and the session store; the handler then reports no backoff but
    the fixed text about 5 attempts, whatever the configured maximum, and
    stays on its screen, where from then on no PIN is accepted. *)
Theorem handlePinUnlock_wipe now now' ui w :
  active (isBackoffActive env now w).1 = false →
  local w !! PIN_KEY ≠ Some (VStr (pinDigest env digest_SHA256 (pin ui))) →
  MAX_FAILED_ATTEMPTS env <= count w + 1 →
  (handlePinUnlock env digest_SHA256 importKey now now' ui w).1
  = setInputPin [] (setError "Invalid PIN. 5 failed attempts will clear data." ui)
  ∧ screen (handlePinUnlock env digest_SHA256 importKey now now' ui w).1 = screen ui
  ∧ (hasPin (handlePinUnlock env digest_SHA256 importKey now now' ui w).2).1 = false
  ∧ count (handlePinUnlock env digest_SHA256 importKey now now' ui w).2 = 0
  ∧ session (handlePinUnlock env digest_SHA256 importKey now now' ui w).2 = ∅
  ∧ ∀ t pin',
      (verifyPin env digest_SHA256 t pin'
         (handlePinUnlock env digest_SHA256 importKey now now' ui w).2).1 = false.
Proof.
  intros Hopen Hp Hmax. rewrite handlePinUnlock_open by done.
  cbn [fst snd]. cbv zeta.
  rewrite verifyPin_result, bool_decide_eq_false_2 by done.
  rewrite getBackoffDelay_value. cbn [fst].
  assert (count (verifyPin env digest_SHA256 now' (pin ui) w).2 = 0) as Hc.
  { rewrite count_verifyPin_mismatch by done.
    by destruct (Z.leb_spec (MAX_FAILED_ATTEMPTS env) (count w + 1)); [|lia]. }
  rewrite Hc. cbn [Z.eqb Z.ltb Z.compare].
  split; [done|]. split; [done|].
  assert (local (verifyPin env digest_SHA256 now' (pin ui) w).2 !! PIN_KEY = None
          ∧ session (verifyPin env digest_SHA256 now' (pin ui) w).2 = ∅) as [Hn Hs].
  { rewrite verifyPin_mismatch by done. cbn [snd]. use_keys.
    destruct (Z.leb_spec (MAX_FAILED_ATTEMPTS env) (count w + 1)); [|lia].
    cbn [local session]. by simplify_map_eq. }
  split; [|split; [done|split; [done|]]].
  - unfold hasPin. run_async. by rewrite Hn.
  - intros t pin'. rewrite verifyPin_result. apply bool_decide_eq_false_2.
    by rewrite Hn.
Qed.

(** X10. After a wrong PIN below the maximum, the next use of the handler
    before the new backoff has run out is refused: the stores stay as the
    failed attempt left them, whatever PIN is entered, and the handler
    reports what is left of the wait. *)
Theorem handlePinUnlock_retry now now' t t' ui ui' w :
  active (isBackoffActive env now w).1 = false →
  local w !! PIN_KEY ≠ Some (VStr (pinDigest env digest_SHA256 (pin ui))) →
  0 <= count w → count w + 1 < MAX_FAILED_ATTEMPTS env →
  t < now' + Z.min (2 ^ (count w + 1)) (MAX_BACKOFF_SECONDS env) * 1000 →
  handlePinUnlock env digest_SHA256 importKey t t' ui'
    (handlePinUnlock env digest_SHA256 importKey now now' ui w).2
  = (let remaining :=
       now' + Z.min (2 ^ (count w + 1)) (MAX_BACKOFF_SECONDS env) * 1000 - t in
     setError ("Brute-force protection: Please wait "
                 +:+ pretty (ceil_div_1000 remaining) +:+ "s")
       (setBackoffRemaining remaining ui'),
     (handlePinUnlock env digest_SHA256 importKey now now' ui w).2).
Proof.
  intros Hopen Hp H0 Hmax Ht.
  rewrite (handlePinUnlock_open now now' ui w) by done. cbn [snd].
  set (w1 := (verifyPin env digest_SHA256 now' (pin ui) w).2).
  assert (count w1 = count w + 1) as Hc.
  { subst w1. rewrite count_verifyPin_mismatch by done.
    by destruct (Z.leb_spec (MAX_FAILED_ATTEMPTS env) (count w + 1)); [lia|]. }
  assert (lastFailureTimestamp w1 = now') as Hl.
  { subst w1. rewrite verifyPin_mismatch by done. cbn [snd]. use_keys.
    destruct (Z.leb_spec (MAX_FAILED_ATTEMPTS env) (count w + 1)); [lia|].
    unfold lastFailureTimestamp. cbn [local].
    rewrite lookup_set2_second by done. cbn [num_or].
    by destruct (Z.eqb_spec now' 0). }
  unfold handlePinUnlock. unfold mbind at 1. unfold Async_bind at 1.
  rewrite isBackoffActive_value. cbv zeta. rewrite Hc, Hl.
  destruct (Z.eqb_spec (count w + 1) 0); [lia|]. cbn [orb].
  destruct (Z.ltb_spec t
              (now' + Z.min (2 ^ (count w + 1)) (MAX_BACKOFF_SECONDS env) * 1000));
    [|lia].
  reflexivity.
Qed.

End Unlock.

(** ** The store invariant *)

Section Stores.
Context (env : Env) (digest_SHA256 : list byte → list byte).
Implicit Types (w : World) (now : Z) (pin : jsstring).

(** The failure count after each operation. *)
Lemma count_run op w :
  count (run env digest_SHA256 op w)
  = match op with
    | OpVerifyPin now pin =>
      if decide (local w !! PIN_KEY = Some (VStr (pinDigest env digest_SHA256 pin)))
      then 0
      else if MAX_FAILED_ATTEMPTS env <=? count w + 1 then 0 else count w + 1
    | OpClearSecurityData => 0
    | _ => count w
    end.
Proof.
  use_keys.
  destruct op as [| | |now pin| | | | | | | | | | | | |];
    try (unfold count at 1; rewrite run_local;
         rewrite ?lookup_set_other, ?lookup_delete_ne by done; done).
  - cbn [run]. destruct (decide _) as [Hp|Hp].
    + by apply count_verifyPin_match.
    + by apply count_verifyPin_mismatch.
  - cbn [run]. apply count_clearSecurityData.
Qed.

(** X11. Whatever operations run, a failure count that starts below the
    maximum stays below it, and the stores stay well typed: the count is
    wiped when it would reach the maximum.  The backoff delay therefore
    never exceeds 2 to the power of the maximum less one, in seconds: 16
    seconds with the default maximum of 5. *)
Theorem failure_count_below_maximum ops w :
  SESSION_KEY_NAME env ≠ LAST_ACTIVITY_KEY → typed w →
  0 <= count w < MAX_FAILED_ATTEMPTS env →
  typed (runs env digest_SHA256 ops w)
  ∧ 0 <= count (runs env digest_SHA256 ops w) < MAX_FAILED_ATTEMPTS env
  ∧ (getBackoffDelay env (runs env digest_SHA256 ops w)).1
    <= 2 ^ (MAX_FAILED_ATTEMPTS env - 1) * 1000.
Proof.
  intros Hname. revert w. unfold runs.
  induction ops as [|op ops IH]; intros w Hw Hc; cbn [foldl].
  - split; [done|]. split; [done|]. rewrite getBackoffDelay_value. cbn [fst].
    assert (0 < 2 ^ (MAX_FAILED_ATTEMPTS env - 1)) by (apply Z.pow_pos_nonneg; lia).
    assert (2 ^ count w <= 2 ^ (MAX_FAILED_ATTEMPTS env - 1))
      by (apply Z.pow_le_mono_r; lia).
    destruct (count w =? 0); lia.
  - apply IH; [by apply run_typed|]. rewrite count_run.
    destruct op; try lia.
    destruct (decide _); [lia|].
    destruct (Z.leb_spec (MAX_FAILED_ATTEMPTS env) (count w + 1)); lia.
Qed.

End Stores.

(** ** The session key *)

Section SessionKeyProperties.
Context (env : Env).
Context {K : Type} (exportKey : K → DOMException + string).
Context {P : Type} (importKey : string → option P).
Implicit Types (w : World) (key : K).

(** X12. When the export of the key is refused, [storeKeyInSession]
    throws the exception of the export and stores nothing.  Otherwise it
    puts the exported text in the session entry, whatever was there, and
    [getKeyFromSession] then returns what the import of that text gives:
    null for an empty text or one that does not parse.  The other session
    entries and the durable store are not touched. *)
Theorem storeKeyInSession_getKeyFromSession key w :
  match exportKey key with
  | inl e =>
    storeKeyInSession env exportKey key w = (inl e, w)
  | inr exported =>
    (storeKeyInSession env exportKey key w).1 = inr tt
    ∧ session (storeKeyInSession env exportKey key w).2 !! SESSION_KEY_NAME env
      = Some (VStr exported)
    ∧ (getKeyFromSession env importKey (storeKeyInSession env exportKey key w).2).1
      = (if String.eqb exported "" then None else importKey exported)
  end
  ∧ (∀ k, k ≠ SESSION_KEY_NAME env →
       session (storeKeyInSession env exportKey key w).2 !! k = session w !! k)
  ∧ local (storeKeyInSession env exportKey key w).2 = local w.
Proof.
  unfold getKeyFromSession, storeKeyInSession.
  destruct (exportKey key) as [e|exported]; run_async; [done|].
  rewrite lookup_set_same. cbn [truthy]. split; [|split; [|done]].
  - split; [done|]. split; [done|]. by destruct (String.eqb exported "").
  - intros k Hk. by rewrite lookup_set_other.
Qed.

(** X13. After [clearKeyFromSession] and after [secureLogout] there is no
    key to get.  The former keeps the other session entries; the latter
    empties the session store, so that the last activity reads 0 and the
    master key hash of the background worker is gone.  Neither touches
    the durable store: the PIN record and the failure count stay.  Until
    then [getMasterKeyHash] gives back the hash that [storeMasterKeyHash]
    stored, and null for the empty text. *)
Theorem secureLogout_clears (keyHash : string) w :
  (getKeyFromSession env importKey (clearKeyFromSession env w).2).1 = None
  ∧ (∀ k, k ≠ SESSION_KEY_NAME env →
       session (clearKeyFromSession env w).2 !! k = session w !! k)
  ∧ local (clearKeyFromSession env w).2 = local w
  ∧ (getKeyFromSession env importKey (secureLogout env w).2).1 = None
  ∧ session (secureLogout env w).2 = ∅
  ∧ lastActivity (secureLogout env w).2 = 0
  ∧ local (secureLogout env w).2 = local w
  ∧ (getMasterKeyHash (storeMasterKeyHash keyHash w).2).1
    = (if String.eqb keyHash "" then None else Some keyHash)
  ∧ (getMasterKeyHash (secureLogout env (storeMasterKeyHash keyHash w).2).2).1 = None
  ∧ (getMasterKeyHash (clearSecurityData (storeMasterKeyHash keyHash w).2).2).1
    = None.
Proof.
  unfold secureLogout, getKeyFromSession, clearKeyFromSession, getMasterKeyHash,
    storeMasterKeyHash, clearSecurityData, lastActivity.
  run_async. rewrite lookup_delete_eq, lookup_set_same, !lookup_empty.
  cbn [truthy num_or]. split_and!; try done.
  - intros k Hk. by rewrite lookup_delete_ne.
  - by destruct (String.eqb keyHash "").
Qed.

End SessionKeyProperties.

(** ** Key derivation and login *)

Section Login.
Context (env : Env) (digest_SHA256 : list byte → list byte).
Context (iterations : option Z).
Context {Material : Type}.
Context (PBKDF2_SHA256 : list byte → list byte → Z → Material).
Context (JSON_stringify_jwk : Material → string).
Context (DOMException_message : DOMException → string).

Lemma initializeUserKey_value masterPassword saltBase64 w :
  initializeUserKey env iterations PBKDF2_SHA256 JSON_stringify_jwk
    masterPassword saltBase64 w
  = (inl (match base64ToArrayBuffer saltBase64 with
         | Some _ => InvalidAccess
         | None => InvalidCharacter
         end),
     w).
Proof.
  unfold initializeUserKey. by destruct (base64ToArrayBuffer saltBase64).
Qed.

(** X14. [initializeUserKey] never returns a key and never stores one: on
    a salt that is not base64 [atob] throws, and on any other salt the
    derived key is not extractable, so that the export in
    [storeKeyInSession] is refused.  The stores are left as they are, and
    with them what [getKeyFromSession] finds. *)
Theorem initializeUserKey_throws {K : Type} (importKey : string → option K)
    masterPassword saltBase64 w :
  (initializeUserKey env iterations PBKDF2_SHA256 JSON_stringify_jwk
     masterPassword saltBase64 w).1
  = inl (match base64ToArrayBuffer saltBase64 with
         | Some _ => InvalidAccess
         | None => InvalidCharacter
         end)
  ∧ (initializeUserKey env iterations PBKDF2_SHA256 JSON_stringify_jwk
       masterPassword saltBase64 w).2 = w
  ∧ (getKeyFromSession env importKey
       (initializeUserKey env iterations PBKDF2_SHA256 JSON_stringify_jwk
          masterPassword saltBase64 w).2).1
    = (getKeyFromSession env importKey w).1
  ∧ extractable (deriveKey iterations PBKDF2_SHA256 masterPassword []) = false.
Proof. by rewrite initializeUserKey_value. Qed.

(** What [handleLogin] ends with, for each answer of the server. *)
Lemma handleLogin_value response now app w :
  handleLogin env iterations PBKDF2_SHA256 JSON_stringify_jwk
    DOMException_message response now app w
  = (setLoading false
       (withUI
          (setError
             match response with
             | LoginSuccess salt =>
               if String.eqb salt "" then
                 "Account has no encryption key. Please register first."
               else
                 match base64ToArrayBuffer salt with
                 | Some _ => "[15] " +:+ DOMException_message InvalidAccess
                 | None => "[5] " +:+ DOMException_message InvalidCharacter
                 end
             | LoginFailure (Some (code, message)) =>
               "[" +:+ code +:+ "] " +:+ message
             | LoginFailure None => "Login failed. Please check your credentials."
             end)
          (withUI (setError "") (setLoading true app))), w).
Proof.
  unfold handleLogin. destruct response as [salt|[[code message]|]]; try done.
  destruct (String.eqb salt ""); [done|].
  unfold mbind at 1. unfold Async_bind at 1.
  rewrite initializeUserKey_value. cbv iota beta.
  by destruct (base64ToArrayBuffer salt).
Qed.

(** X15. [handleLogin] never leaves its screen and never writes to the
    stores, whatever the server answers: it ends with the loading flag
    down and an error message, which for a successful sign-in is that of
    the exception of [initializeUserKey]. *)
Theorem handleLogin_stays response now app w :
  (handleLogin env iterations PBKDF2_SHA256 JSON_stringify_jwk
     DOMException_message response now app w).2 = w
  ∧ screen (ui (handleLogin env iterations PBKDF2_SHA256 JSON_stringify_jwk
                  DOMException_message response now app w).1) = screen (ui app)
  ∧ loads (ui (handleLogin env iterations PBKDF2_SHA256 JSON_stringify_jwk
                 DOMException_message response now app w).1) = loads (ui app)
  ∧ isLoading (handleLogin env iterations PBKDF2_SHA256 JSON_stringify_jwk
                 DOMException_message response now app w).1 = false
  ∧ error (ui (handleLogin env iterations PBKDF2_SHA256 JSON_stringify_jwk
                 DOMException_message response now app w).1) ≠ ""
  ∧ ∀ salt, response = LoginSuccess salt → salt ≠ "" →
      error (ui (handleLogin env iterations PBKDF2_SHA256 JSON_stringify_jwk
                   DOMException_message response now app w).1)
      = match base64ToArrayBuffer salt with
        | Some _ => "[15] " +:+ DOMException_message InvalidAccess
        | None => "[5] " +:+ DOMException_message InvalidCharacter
        end.
Proof.
  rewrite handleLogin_value.
  cbn [fst snd setLoading withUI setError ui screen loads isLoading error].
  do 4 (split; [reflexivity|]). split.
  - destruct response as [salt|[[code message]|]]; [|discriminate..].
    destruct (String.eqb salt ""); [discriminate|].
    destruct (base64ToArrayBuffer salt); discriminate.
  - intros salt -> Hsalt.
    destruct (String.eqb_spec salt "") as [|_]; [contradiction|reflexivity].
Qed.

End Login.

(** ** The base64 texts *)

Lemma b64_sextets_padded (bs : list N) :
  (length (b64_sextets bs) + (3 - length bs mod 3) mod 3
   = 4 * ((length bs + 2) / 3))%nat.
Proof.
  induction bs as [|x|x y|x y z l IH] using list_ind3;
    cbn [b64_sextets app length]; try done.
  div_lia.
Qed.

(** X16. The base64 text of [n] bytes has 4 characters for every 3 bytes
    begun, all of the alphabet or the padding sign, and different arrays
    have different texts. *)
Theorem arrayBufferToBase64_shape (b b' : list byte) :
  String.length (arrayBufferToBase64 b) = (4 * ((length b + 2) / 3))%nat
  ∧ Forall (fun c => is_Some (b64_index c) ∨ c = "="%char)
           (list_ascii_of_string (arrayBufferToBase64 b))
  ∧ (arrayBufferToBase64 b = arrayBufferToBase64 b' → b = b').
Proof.
  split; [|split].
  - rewrite arrayBufferToBase64_btoa. unfold btoa.
    rewrite <- length_list_ascii, !list_ascii_of_string_of_list_ascii.
    set (bs := N_of_ascii <$> (ascii_of_byte <$> b)).
    assert (length b = length bs) as -> by (subst bs; by rewrite !length_fmap).
    rewrite length_app, length_fmap. unfold b64_padding.
    rewrite length_replicate.
    apply b64_sextets_padded.
  - rewrite arrayBufferToBase64_btoa. unfold btoa.
    rewrite !list_ascii_of_string_of_list_ascii. apply Forall_app. split.
    + apply Forall_fmap. eapply Forall_impl.
      * apply b64_sextets_bound. apply Forall_fmap, Forall_fmap, Forall_true.
        intros x. simpl. apply N_ascii_bounded.
      * intros s Hs. simpl. left.
        destruct (b64_alphabet_ok s Hs) as [-> _]. by eexists.
    + apply Forall_forall. intros c Hc. right.
      by apply elem_of_replicate in Hc as [-> _].
  - intros Heq.
    assert (Some b = Some b') as [=]; [|done].
    rewrite <- (base64ToArrayBuffer_btoa b), <- (base64ToArrayBuffer_btoa b').
    by rewrite <- !arrayBufferToBase64_btoa, Heq.
Qed.

Lemma strip_padding_keeps (c : ascii) (data : list ascii) :
  c ∈ data → c ≠ "="%char → c ∈ strip_padding data.
Proof.
  intros Hin Hc. unfold strip_padding.
  destruct (reverse data) as [|c1 r1] eqn:Hr; [done|].
  destruct (Ascii.eqb_spec c1 "=") as [->|_]; [|done].
  apply elem_of_reverse in Hin. rewrite Hr in Hin.
  apply elem_of_cons in Hin as [->|Hin]; [done|].
  destruct r1 as [|c2 r2]; [by apply elem_of_nil in Hin|].
  destruct (Ascii.eqb_spec c2 "=") as [->|_].
  - apply elem_of_cons in Hin as [->|Hin]; [done|]. by apply elem_of_reverse.
  - by apply elem_of_reverse.
Qed.

Lemma atob_invalid (data : string) (c : ascii) :
  c ∈ list_ascii_of_string data → b64_index c = None →
  is_ascii_whitespace c = false → c ≠ "="%char →
  atob data = None.
Proof.
  intros Hin Hidx Hws Hpad. unfold atob.
  set (kept := filter _ _).
  assert (c ∈ kept) as Hkept by (by apply list_elem_of_filter).
  set (stripped := if decide (length kept mod 4 = 0)%nat
                   then strip_padding kept else kept).
  assert (c ∈ stripped) as Hs.
  { subst stripped. destruct (decide _); [by apply strip_padding_keeps|done]. }
  destruct (decide (length stripped mod 4 = 1)%nat); [done|].
  destruct (mapM b64_index stripped) as [sextets|] eqn:Hm; [|done].
  assert (is_Some (mapM b64_index stripped)) as Hsome by (by rewrite Hm).
  apply mapM_is_Some in Hsome. rewrite Forall_forall in Hsome.
  destruct (Hsome c Hs) as [x Hx]. simpl in Hx. congruence.
Qed.

Section InvalidText.
Context {CryptoKey : Type}.
Context (AES_GCM_decrypt : CryptoKey → list byte → list byte → option (list byte)).

(** X17. A text with a character that is neither of the base64 alphabet,
    nor white space, nor the padding sign is not decoded:
    [base64ToArrayBuffer] throws, and so does [decryptData] when it is
    given such a text as the ciphertext or as the nonce, before the cipher
    is asked. *)
Theorem base64ToArrayBuffer_invalid (base64 : string) (c : ascii) :
  c ∈ list_ascii_of_string base64 → b64_index c = None →
  is_ascii_whitespace c = false → c ≠ "="%char →
  base64ToArrayBuffer base64 = None
  ∧ ∀ key other,
      decryptData AES_GCM_decrypt key base64 other = Throws InvalidCharacterError
      ∧ decryptData AES_GCM_decrypt key other base64 = Throws InvalidCharacterError.
Proof.
  intros Hin Hidx Hws Hpad.
  assert (base64ToArrayBuffer base64 = None) as Hnone.
  { unfold base64ToArrayBuffer. by rewrite (atob_invalid base64 c). }
  split; [done|]. intros key other. unfold decryptData. rewrite Hnone.
  split; [done|]. by destruct (base64ToArrayBuffer other).
Qed.

End InvalidText.

(** ** The edit distance as a metric *)

Lemma script_length n a b :
  script n a b → (length a ≤ length b + n ∧ length b ≤ length a + n)%nat.
Proof. induction 1; simpl; lia. Qed.

Lemma lev_le_max a b : (lev a b ≤ Nat.max (length a) (length b))%nat.
Proof.
  revert b. induction a as [|x a IH]; intros b.
  - rewrite lev_nil_l. lia.
  - destruct b as [|y b]; [rewrite lev_nil_r; lia|].
    rewrite lev_cons. specialize (IH b). simpl. destruct (decide (x = y)); lia.
Qed.

(** Two edit scripts in a row make one that is no longer than both. *)
Lemma script_trans n a b :
  script n a b → ∀ m c, script m b c → ∃ k, (k ≤ n + m)%nat ∧ script k a c.
Proof.
  induction 1 as [|x a b n _ IH|x y a b n _ IH|x a b n _ IH|y a b n _ IH];
    intros m c H2.
  - exists m. split; [lia|done].
  - remember (x :: b) as xb eqn:Hxb. revert Hxb.
    induction H2 as [|x' b0 c0 m H2 _|x' z b0 c0 m H2 _|x' b0 c0 m H2 _|z b0 c0 m H2 IH2];
      intros Hxb; simplify_eq.
    + destruct (IH _ _ H2) as (k & Hk & Hs). exists k. split; [lia|by constructor].
    + destruct (IH _ _ H2) as (k & Hk & Hs). exists (S k). split; [lia|by constructor].
    + destruct (IH _ _ H2) as (k & Hk & Hs). exists (S k). split; [lia|by constructor].
    + destruct (IH2 eq_refl) as (k & Hk & Hs). exists (S k).
      split; [lia|by constructor].
  - remember (y :: b) as yb eqn:Hyb. revert Hyb.
    induction H2 as [|x' b0 c0 m H2 _|x' z b0 c0 m H2 _|x' b0 c0 m H2 _|z b0 c0 m H2 IH2];
      intros Hyb; simplify_eq.
    + destruct (IH _ _ H2) as (k & Hk & Hs). exists (S k). split; [lia|by constructor].
    + destruct (IH _ _ H2) as (k & Hk & Hs). exists (S k). split; [lia|by constructor].
    + destruct (IH _ _ H2) as (k & Hk & Hs). exists (S k). split; [lia|by constructor].
    + destruct (IH2 eq_refl) as (k & Hk & Hs). exists (S k).
      split; [lia|by constructor].
  - destruct (IH _ _ H2) as (k & Hk & Hs). exists (S k). split; [lia|by constructor].
  - remember (y :: b) as yb eqn:Hyb. revert Hyb.
    induction H2 as [|x' b0 c0 m H2 _|x' z b0 c0 m H2 _|x' b0 c0 m H2 _|z b0 c0 m H2 IH2];
      intros Hyb; simplify_eq.
    + destruct (IH _ _ H2) as (k & Hk & Hs). exists (S k). split; [lia|by constructor].
    + destruct (IH _ _ H2) as (k & Hk & Hs). exists (S k). split; [lia|by constructor].
    + destruct (IH _ _ H2) as (k & Hk & Hs). exists k. split; [lia|done].
    + destruct (IH2 eq_refl) as (k & Hk & Hs). exists (S k).
      split; [lia|by constructor].
Qed.

Lemma lev_triangle a b c : (lev a c ≤ lev a b + lev b c)%nat.
Proof.
  destruct (script_trans _ _ _ (script_lev a b) _ _ (script_lev b c))
    as (k & Hk & Hs).
  apply lev_le_script in Hs. lia.
Qed.

(** X18. [levenshteinDistance] always returns a number: the same for both
    orders of its arguments, 0 on equal words only, and between the
    difference of the two lengths and the greater of them. *)
Theorem levenshteinDistance_symmetric (a b : string) :
  levenshteinDistance a b = levenshteinDistance b a
  ∧ (levenshteinDistance a b = Some 0 ↔ a = b)
  ∧ ∃ d, levenshteinDistance a b = Some d
         ∧ Z.abs (Z.of_nat (String.length a) - Z.of_nat (String.length b)) <= d
         ∧ d <= Z.max (Z.of_nat (String.length a)) (Z.of_nat (String.length b)).
Proof.
  rewrite !levenshteinDistance_lev. split; [by rewrite lev_sym|]. split.
  - split.
    + intros [= H]. apply list_ascii_of_string_inj, lev_zero. lia.
    + intros ->. f_equal.
      assert (lev (list_ascii_of_string b) (list_ascii_of_string b) = 0%nat)
        as -> by (by apply lev_zero).
      done.
  - eexists. split; [done|]. rewrite <- !length_list_ascii.
    pose proof (script_length _ _ _
                  (script_lev (list_ascii_of_string a) (list_ascii_of_string b))).
    pose proof (lev_le_max (list_ascii_of_string a) (list_ascii_of_string b)).
    lia.
Qed.

(** X19. The distance obeys the triangle inequality: going through a
    third word is never shorter. *)
Theorem levenshteinDistance_triangle (a b c : string) :
  ∃ dab dbc dac,
    levenshteinDistance a b = Some dab
    ∧ levenshteinDistance b c = Some dbc
    ∧ levenshteinDistance a c = Some dac
    ∧ dac <= dab + dbc.
Proof.
  rewrite !levenshteinDistance_lev. do 3 eexists. split_and!; try done.
  pose proof (lev_triangle (list_ascii_of_string a) (list_ascii_of_string b)
                (list_ascii_of_string c)).
  lia.
Qed.

(** ** Typing errors in the hostname *)

(** X20. When neither hostname is empty and they differ, the phishing
    warning is given exactly when one or two single-character insertions,
    deletions or substitutions turn the current hostname into the stored
    one. *)
Theorem checkDomainMatch_typo {Url : Type} (URL_hostname : Url → option string)
    (currentUrl storedUrl : Url) :
  extractDomain URL_hostname currentUrl ≠ "" →
  extractDomain URL_hostname storedUrl ≠ "" →
  extractDomain URL_hostname currentUrl ≠ extractDomain URL_hostname storedUrl →
  checkDomainMatch URL_hostname currentUrl storedUrl
  = {| isMatch := false;
       warning := Some (phishing_warning (extractDomain URL_hostname currentUrl)
                          (extractDomain URL_hostname storedUrl)) |}
  ↔ ∃ n, (n ≤ 2)%nat
         ∧ script n (list_ascii_of_string (extractDomain URL_hostname currentUrl))
                    (list_ascii_of_string (extractDomain URL_hostname storedUrl)).
Proof.
  intros Hc Hs Hne. unfold checkDomainMatch.
  set (cur := extractDomain URL_hostname currentUrl) in *.
  set (sto := extractDomain URL_hostname storedUrl) in *.
  destruct (String.eqb_spec cur "") as [|_]; [done|].
  destruct (String.eqb_spec sto "") as [|_]; [done|]. cbn [orb].
  destruct (String.eqb_spec cur sto) as [|_]; [done|].
  rewrite levenshteinDistance_lev.
  pose proof (distance_positive cur sto Hne) as Hpos.
  set (d := lev (list_ascii_of_string cur) (list_ascii_of_string sto)) in *.
  destruct (Z.leb_spec (Z.of_nat d) 2), (Z.ltb_spec 0 (Z.of_nat d));
    cbn [andb]; try lia.
  - split; [intros _|done]. exists d. split; [lia|]. apply script_lev.
  - split.
    + by intros [=].
    + intros (n & Hn & Hscript). apply lev_le_script in Hscript. fold d in Hscript.
      lia.
Qed.

(** ** The clipboard *)

Section ClipboardProperties.
Implicit Types (c : Clipboard) (text : jsstring) (queue : list (Z * jsstring)).

Lemma elem_of_setTimeout due text queue timer :
  timer ∈ setTimeout due text queue ↔ timer = (due, text) ∨ timer ∈ queue.
Proof.
  induction queue as [|[due' text'] queue IH]; cbn [setTimeout].
  - rewrite list_elem_of_singleton, elem_of_nil. tauto.
  - destruct (due <? due'); rewrite !elem_of_cons; [tauto|].
    rewrite IH. tauto.
Qed.

Lemma timer_delay_small ms : 0 <= ms < 2 ^ 31 → timer_delay ms = ms.
Proof.
  intros Hms. unfold timer_delay, ToInt32.
  rewrite Z.mod_small by lia. lia.
Qed.

(** The callbacks never touch the queue. *)
Lemma timers_callbacks readable granted (due : list (Z * jsstring)) c :
  timers (foldl (fun c timer => clearIfUnchanged readable granted timer.2 c) c due)
  = timers c.
Proof.
  revert c. induction due as [|timer due IH]; intros c; [done|].
  cbn [foldl]. rewrite IH. unfold clearIfUnchanged, writeText.
  destruct readable; [|done]. destruct (decide _); [|done]. by destruct granted.
Qed.

(** What a run of callbacks may do to the content: nothing, or empty it
    when one of them holds it. *)
Lemma content_callbacks readable granted (due : list (Z * jsstring)) c :
  content (foldl (fun c timer => clearIfUnchanged readable granted timer.2 c) c due)
  = content c
  ∨ content (foldl (fun c timer => clearIfUnchanged readable granted timer.2 c) c due)
    = []
    ∧ readable = true ∧ granted = true
    ∧ ∃ d, (d, content c) ∈ due.
Proof.
  revert c. induction due as [|[d text] due IH]; intros c; [by left|].
  cbn [foldl snd]. unfold clearIfUnchanged at 2 4. unfold writeText.
  destruct readable; [|destruct (IH c) as [?|(?&?&_)]; [by left|done]].
  destruct (decide (content c = text)) as [Heq|Hne].
  - destruct granted.
    + right. destruct (IH {| content := []; timers := timers c |})
        as [H|(H&_)]; cbn [content] in *;
        (split; [done|]; split; [done|]; split; [done|]);
        exists d; rewrite Heq; apply list_elem_of_here.
    + destruct (IH c) as [?|(?&?&?&_)]; [by left|done].
  - destruct (IH c) as [?|(?&?&?&d'&?)]; [by left|].
    right. split; [done|]. split; [done|]. split; [done|].
    exists d'. by apply list_elem_of_further.
Qed.

(** A callback that holds the content empties it, when the clipboard may
    be read and written. *)
Lemma content_callbacks_due (due : list (Z * jsstring)) c d :
  (d, content c) ∈ due →
  content (foldl (fun c timer => clearIfUnchanged true true timer.2 c) c due) = [].
Proof.
  revert c. induction due as [|[d' text] due IH]; intros c Hin.
  { by apply elem_of_nil in Hin. }
  cbn [foldl snd]. unfold clearIfUnchanged at 2. unfold writeText.
  destruct (decide (content c = text)) as [Heq|Hne].
  - destruct (content_callbacks true true due {| content := []; timers := timers c |})
      as [H|(H&_)]; by rewrite H.
  - apply IH. apply elem_of_cons in Hin as [[= _ ?]|Hin]; [done|done].
Qed.

Lemma runTimers_timers readable granted now c :
  timers (runTimers readable granted now c)
  = filter (fun timer => ¬ timer.1 ≤ now) (timers c).
Proof. unfold runTimers. by rewrite timers_callbacks. Qed.

Lemma runTimers_idle readable granted now c :
  timers c = [] → runTimers readable granted now c = c.
Proof. intros H. unfold runTimers. rewrite H. cbn. rewrite <- H. by destruct c. Qed.

(** X21. As long as the clipboard changes only through [copyToClipboard]
    and the clipboard calls are permitted, a content that is not empty has
    a callback pending that holds it: nothing the extension copied stays
    once the queue is empty. *)
Theorem clipboard_pending_clear (events : list ClipboardEvent) c :
  Forall (fun e => ∀ text, e ≠ UserCopy text) events →
  content c = [] ∨ (∃ d, (d, content c) ∈ timers c) →
  content (foldl clipboardStep c events) = []
  ∨ ∃ d, (d, content (foldl clipboardStep c events))
         ∈ timers (foldl clipboardStep c events).
Proof.
  revert c. induction events as [|e events IH]; intros c Hev Hc; [done|].
  apply Forall_cons in Hev as [He Hev]. cbn [foldl]. apply IH; [done|].
  destruct e as [now text secs|now|text]; cbn [clipboardStep].
  - right. eexists. unfold copyToClipboard, writeText. cbn [content timers].
    apply elem_of_setTimeout. by left.
  - rewrite runTimers_timers. unfold runTimers.
    set (rest := {| content := content c; timers := _ |}).
    destruct Hc as [Hnil|[d Hd]].
    + left.
      destruct (content_callbacks true true
                  (filter (fun timer => timer.1 ≤ now) (timers c)) rest)
        as [H|(H&_)]; rewrite H; done.
    + destruct (decide (d ≤ now)) as [Hdue|Hlater].
      * left. apply (content_callbacks_due _ rest d).
        by apply list_elem_of_filter.
      * destruct (content_callbacks true true
                    (filter (fun timer => timer.1 ≤ now) (timers c)) rest)
          as [H|(H&_)]; rewrite H; [|by left].
        right. exists d. by apply list_elem_of_filter.
  - by destruct (He text).
Qed.

(** X22. With a delay that [setTimeout] takes as it is, what
    [copyToClipboard] copied is gone from the clipboard once the event loop
    runs at or after the time of the copy plus the delay, whatever else
    was pending; until then it stays, unless an older callback holds the
    same text.  Copying the same text again does not put off the older
    callback. *)
Theorem copyToClipboard_cleared now now' t text clearAfterSeconds c :
  0 <= clearAfterSeconds * 1000 < 2 ^ 31 →
  (now + clearAfterSeconds * 1000 <= t →
   content (runTimers true true t
              (copyToClipboard true now text clearAfterSeconds c)) = [])
  ∧ (t < now + clearAfterSeconds * 1000 →
     (∀ d, (d, text) ∈ timers c → t < d) →
     content (runTimers true true t
                (copyToClipboard true now text clearAfterSeconds c)) = text)
  ∧ (now + clearAfterSeconds * 1000 <= t →
     content (runTimers true true t
                (copyToClipboard true now' text clearAfterSeconds
                   (copyToClipboard true now text clearAfterSeconds c))) = []).
Proof.
  intros Hms. unfold copyToClipboard, writeText. cbn [content timers].
  rewrite timer_delay_small by done. split; [|split].
  - intros Ht. unfold runTimers. cbn [content timers].
    apply (content_callbacks_due _ _ (now + clearAfterSeconds * 1000)).
    apply list_elem_of_filter. split; [done|].
    cbn [content]. apply elem_of_setTimeout. by left.
  - intros Ht Hold. unfold runTimers. cbn [content timers].
    set (rest := {| content := _; timers := _ |}).
    set (due := filter _ _).
    destruct (content_callbacks true true due rest)
      as [H|(_&_&_&d&Hd)]; [by rewrite H|].
    exfalso. subst due. apply list_elem_of_filter in Hd as [Hdue Hd].
    cbn [content rest fst] in Hdue, Hd.
    apply elem_of_setTimeout in Hd as [[= ->]|Hd]; [lia|].
    specialize (Hold d Hd). lia.
  - intros Ht. unfold runTimers. cbn [content timers].
    apply (content_callbacks_due _ _ (now + clearAfterSeconds * 1000)).
    apply list_elem_of_filter. split; [done|].
    cbn [content]. apply elem_of_setTimeout. right.
    apply elem_of_setTimeout. by left.
Qed.

(** X23. A run of the event loop either leaves the content as it is or
    empties it, and it empties it only when a callback that is due holds
    exactly that content: what the user copied elsewhere is never cleared
    unless it equals a copied secret whose time has come. *)
Theorem runTimers_foreign readable granted now c :
  (content (runTimers readable granted now c) = content c
   ∨ content (runTimers readable granted now c) = [])
  ∧ ((∀ d, (d, content c) ∈ timers c → now < d) →
     content (runTimers readable granted now c) = content c)
  ∧ timers (runTimers readable granted now c)
    = filter (fun timer => ¬ timer.1 ≤ now) (timers c).
Proof.
  split; [|split; [|apply runTimers_timers]]; unfold runTimers;
    set (rest := {| content := _; timers := _ |});
    destruct (content_callbacks readable granted
                (filter (fun timer => timer.1 ≤ now) (timers c)) rest)
      as [H|(H&_&_&d&Hd)]; rewrite H; auto.
  intros Hlater. apply list_elem_of_filter in Hd as [Hdue Hd].
  specialize (Hlater d Hd). cbn [fst] in Hdue. lia.
Qed.

(** X24. When the clipboard cannot be read at the time the callback runs,
    the failure is dropped with the callback: the copied text stays on
    the clipboard, and no later run of the event loop clears it. *)
Theorem copyToClipboard_unreadable granted now t text clearAfterSeconds
    (ticks : list Z) c :
  timers c = [] → 0 <= clearAfterSeconds * 1000 < 2 ^ 31 →
  now + clearAfterSeconds * 1000 <= t →
  foldl (fun c t' => runTimers true true t' c)
    (runTimers false granted t (copyToClipboard true now text clearAfterSeconds c))
    ticks
  = {| content := text; timers := [] |}.
Proof.
  intros Hempty Hms Ht.
  assert (runTimers false granted t
            (copyToClipboard true now text clearAfterSeconds c)
          = {| content := text; timers := [] |}) as ->.
  { unfold runTimers, copyToClipboard, writeText. cbn [content timers].
    rewrite Hempty, timer_delay_small by done. cbn [setTimeout].
    rewrite !filter_cons, !filter_nil. cbn [fst].
    destruct (decide (now + clearAfterSeconds * 1000 ≤ t)); [|lia].
    destruct (decide (¬ now + clearAfterSeconds * 1000 ≤ t)); [lia|]. done. }
  induction ticks as [|t' ticks IH]; [done|].
  cbn [foldl]. by rewrite runTimers_idle.
Qed.

End ClipboardProperties.

(** ** The popup: session check, PIN setup and settings *)

Section FlowProperties.
Context (env : Env) (digest_SHA256 : list byte → list byte).
Context {K : Type} (importKey : string → option (Settled K)).
Implicit Types (w : World) (now : Z) (ui : UI) (app : App).



(** X26. [handlePinSetup] stores a PIN only when it has 4 to 6 characters
    and equals its confirmation; otherwise it reports which of the two
    failed and leaves the stores alone.  The PIN it stores is one that
    [verifyPin] accepts; the activity is recorded, the vault is shown, and
    the failure count is what it was. *)
Theorem handlePinSetup_cases now t app w :
  ((length (newPin app) < 4 ∨ 6 < length (newPin app))%nat →
   handlePinSetup env digest_SHA256 now app w
   = (withUI (setError "PIN must be 4-6 digits") app, w))
  ∧ ((4 ≤ length (newPin app) ≤ 6)%nat → newPin app ≠ confirmPin app →
     handlePinSetup env digest_SHA256 now app w
     = (withUI (setError "PINs do not match") app, w))
  ∧ ((4 ≤ length (newPin app) ≤ 6)%nat → newPin app = confirmPin app →
     (handlePinSetup env digest_SHA256 now app w).1
     = withUI (setScreen main) (withUI loadSecrets (setMasterPassword [] app))
     ∧ (verifyPin env digest_SHA256 t (newPin app)
          (handlePinSetup env digest_SHA256 now app w).2).1 = true
     ∧ lastActivity (handlePinSetup env digest_SHA256 now app w).2 = now
     ∧ count (handlePinSetup env digest_SHA256 now app w).2 = count w).
Proof.
  unfold handlePinSetup. split; [|split].
  - intros Hlen.
    destruct (Nat.ltb_spec (length (newPin app)) 4),
      (Nat.ltb_spec 6 (length (newPin app))); cbn [orb]; (done || lia).
  - intros Hlen Hne.
    destruct (Nat.ltb_spec (length (newPin app)) 4),
      (Nat.ltb_spec 6 (length (newPin app))); cbn [orb]; try lia.
    by rewrite bool_decide_eq_false_2.
  - intros Hlen Heq.
    destruct (Nat.ltb_spec (length (newPin app)) 4),
      (Nat.ltb_spec 6 (length (newPin app))); cbn [orb]; try lia.
    rewrite bool_decide_eq_true_2 by done. cbn [negb].
    unfold setPin, hashPin, updateLastActivity. run_async. use_keys.
    split; [done|]. split; [|split].
    + rewrite verifyPin_result. apply bool_decide_eq_true_2. cbn [local].
      apply lookup_set_same.
    + unfold lastActivity. cbn [session]. rewrite lookup_set_same. cbn [num_or].
      by destruct (Z.eqb_spec now 0).
    + unfold count. cbn [local]. by rewrite lookup_set_other.
Qed.


End FlowProperties.

(** ** The popup: listing and filling secrets *)

Section VaultProperties.
Context (env : Env).
Context {K : Type} (importKey : string → option K).
Context (AES_GCM_encrypt : K → list byte → list byte → list byte).
Context (AES_GCM_decrypt : K → list byte → list byte → option (list byte)).
Context (JSON_parse : jsstring → option ParsedSecret).

(** X28. [loadSecrets] only reads the stores and shows nothing new without
    a session key or when the fetch fails.  Otherwise it shows one entry
    for each secret fetched, in order and under its id; a secret that does
    not decrypt or parse gets the placeholder entry without user name or
    password, and the entries of the others are not affected. *)
Theorem loadSecrets_isolates rawSecrets w :
  (loadSecrets_body env importKey AES_GCM_decrypt JSON_parse rawSecrets w).2 = w
  ∧ match (getKeyFromSession env importKey w).1, rawSecrets with
    | Some key, Some raw =>
      ∃ shown,
        (loadSecrets_body env importKey AES_GCM_decrypt JSON_parse rawSecrets w).1
        = Some shown
        ∧ DecryptedSecret.id <$> shown = SecretDTO.id <$> raw
        ∧ ∀ i s, raw !! i = Some s →
            shown !! i = Some (decryptSecret AES_GCM_decrypt JSON_parse key s)
            ∧ ((∀ plaintext,
                  decryptData AES_GCM_decrypt key (SecretDTO.encryptedData s)
                    (SecretDTO.iv s) = Returns plaintext →
                  JSON_parse plaintext = None) →
               shown !! i
               = Some {| DecryptedSecret.id := SecretDTO.id s;
                         DecryptedSecret.name :=
                           js_of_string "Encrypted: " ++ take 8 (SecretDTO.id s)
                             ++ js_of_string "...";
                         DecryptedSecret.username := None;
                         DecryptedSecret.password := None |})
    | _, _ =>
      (loadSecrets_body env importKey AES_GCM_decrypt JSON_parse rawSecrets w).1
      = None
    end.
Proof.
  unfold loadSecrets_body. destruct rawSecrets as [raw|].
  2:{ split; [done|]. by destruct (getKeyFromSession env importKey w).1. }
  unfold mbind, Async_bind.
  destruct (getKeyFromSession env importKey w) as [key w'] eqn:Hk.
  assert (w' = w) as -> by (by rewrite <- (getKeyFromSession_reads env importKey w), Hk).
  cbn [fst]. destruct key as [key|]; (split; [done|]); [|done].
  eexists. split; [done|]. split.
  - rewrite <- list_fmap_compose. apply list_fmap_ext. intros i s _. simpl.
    unfold decryptSecret.
    destruct (decryptData _ _ _ _) as [plaintext|e]; [|done].
    by destruct (JSON_parse plaintext).
  - intros i s Hs. rewrite list_lookup_fmap, Hs. split; [done|].
    intros Hfail. cbn [fmap option_fmap option_map]. f_equal.
    unfold decryptSecret.
    destruct (decryptData _ _ _ _) as [plaintext|e]; [|done].
    by rewrite (Hfail plaintext eq_refl).
Qed.

(** X29. A secret sealed by [encryptData] under the session key comes back
    in [loadSecrets] with the fields of its plaintext, when AES-GCM
    decrypts what it encrypted and the plaintext has no lone surrogate
    and does not start with U+FEFF; a name that is missing or empty is
    replaced by the first 8 characters of the id. *)
Theorem decryptSecret_encryptData key nonce plaintext parsed id :
  (∀ k n p, AES_GCM_decrypt k n (AES_GCM_encrypt k n p) = Some p) →
  well_formed plaintext = true → head plaintext ≠ Some 65279 →
  JSON_parse plaintext = Some parsed →
  decryptSecret AES_GCM_decrypt JSON_parse key
    {| SecretDTO.id := id;
       SecretDTO.encryptedData :=
         encrypted (encryptData AES_GCM_encrypt key nonce plaintext);
       SecretDTO.iv := iv (encryptData AES_GCM_encrypt key nonce plaintext) |}
  = {| DecryptedSecret.id := id;
       DecryptedSecret.name :=
         match parsed_name parsed with
         | Some (c :: name) => c :: name
         | _ => js_of_string "Secret " ++ take 8 id
         end;
       DecryptedSecret.username := parsed_username parsed;
       DecryptedSecret.password := parsed_password parsed |}.
Proof.
  intros Hcorrect Hwf Hbom Hparse. unfold decryptSecret, encryptData.
  cbn [SecretDTO.id SecretDTO.encryptedData SecretDTO.iv encrypted iv].
  rewrite decryptData_base64, Hcorrect, TextDecoder_TextEncoder by done.
  rewrite Hparse. unfold jsstring_or.
  by destruct (parsed_name parsed) as [[|c name]|].
Qed.

End VaultProperties.

(** X30. [handleFill] copies the password whenever there is one, and
    sends its message only to an active tab and only when the secret has
    both a user name and a password.  The message asks for
    [FILL_CREDENTIALS], which the listener of the content script does not
    handle: the page is never touched. *)
Theorem handleFill_message granted now tab secret c :
  (handleFill granted now tab secret c).1
  = match DecryptedSecret.password secret with
    | Some (x :: password) => copyToClipboard granted now (x :: password) 30 c
    | _ => c
    end
  ∧ (is_Some (handleFill granted now tab secret c).2
     ↔ (∃ tabId, tab = Some tabId ∧ tabId ≠ 0)
       ∧ (∃ x username, DecryptedSecret.username secret = Some (x :: username))
       ∧ (∃ x password, DecryptedSecret.password secret = Some (x :: password)))
  ∧ ∀ tabId message,
      (handleFill granted now tab secret c).2 = Some (tabId, message) →
      tab = Some tabId
      ∧ action message = "FILL_CREDENTIALS"
      ∧ DecryptedSecret.username secret = Some (fill_username message)
      ∧ DecryptedSecret.password secret = Some (fill_password message)
      ∧ ∀ secretId passwordFields,
          content_onMessage (action message) secretId passwordFields = Nothing.
Proof.
  unfold handleFill. cbn [fst snd]. split; [|split].
  - by destruct (DecryptedSecret.password secret) as [[|x password]|].
  - destruct tab as [tabId|],
      (DecryptedSecret.username secret) as [[|x username]|],
      (DecryptedSecret.password secret) as [[|y password]|];
      cbn [nonempty];
      try (split; [by intros [? [=]]|by intros ((?&?&?)&(?&?&?)&(?&?&?))]).
    destruct (Z.eqb_spec tabId 0) as [->|Hne].
    + split; [by intros [? [=]]|]. by intros ((?&[= <-]&?)&_).
    + split; [intros _|by eexists]. split_and!; by eauto.
  - intros tabId message.
    destruct tab as [tabId'|],
      (DecryptedSecret.username secret) as [[|x username]|],
      (DecryptedSecret.password secret) as [[|y password]|];
      cbn [nonempty]; try done.
    destruct (tabId' =? 0); [done|]. by intros [= <- <-].
Qed.

(** ** The further properties on the sample states *)

(** X2 on a digest of 32 bytes. *)
Lemma setPin_hasPin_witness :
  String.length (pinDigest default_env sample_digest32 [49; 50; 51; 52]) = 64%nat
  ∧ (hasPin (setPin default_env sample_digest32 [49; 50; 51; 52] w_fresh).2).1 = true.
Proof.
  destruct (setPin_hasPin default_env sample_digest32 [49; 50; 51; 52] w_fresh)
    as (_ & H64 & Hhas & _).
  - intros data. unfold sample_digest32.
    rewrite length_take, length_app, length_replicate. lia.
  - split; [exact H64|exact Hhas].
Defined.

(** X4 on the samples: 8 seconds after three failures, 16 after four. *)
Lemma getBackoffDelay_monotone_witness :
  0 <= (getBackoffDelay default_env w_locked).1
    <= (getBackoffDelay default_env w_last_chance).1
  ∧ (getBackoffDelay default_env w_last_chance).1
    <= MAX_BACKOFF_SECONDS default_env * 1000.
Proof.
  apply (getBackoffDelay_monotone default_env w_locked w_last_chance).
  - by vm_compute.
  - vm_compute. by split.
Defined.

(** X6 on the locked sample: the fourth failure, at time 10000, closes
    the gate for 16 seconds. *)
Lemma verifyPin_failure_backoff_witness :
  (getBackoffDelay default_env
     (verifyPin default_env sample_digest 10000 [48; 48; 48; 48] w_locked).2).1
  = 16000
  ∧ active (isBackoffActive default_env 25999
              (verifyPin default_env sample_digest 10000 [48; 48; 48; 48]
                 w_locked).2).1 = true.
Proof.
  destruct (verifyPin_failure_backoff default_env sample_digest 10000 25999
              [48; 48; 48; 48] w_locked) as [Hd Ha];
    [by vm_compute|by vm_compute|by vm_compute|].
  split; [exact Hd|]. apply Ha. by vm_compute.
Defined.

(** X7 on the samples, once the backoff has run out and with the right
    PIN.  On the locked sample the session holds no key: the handler goes
    to the login screen.  On the other sample the key text is [{}], which
    parses and does not import: the handler throws, the component state
    stays, and the count is reset all the same. *)
Lemma handlePinUnlock_accepted_witness :
  (handlePinUnlock default_env sample_digest
     (fun jwk : string => Some (Fulfilled jwk)) 10000 10001 ui_unlock w_locked).1
  = setScreen login (setError "Session expired. Please login again." ui_unlock)
  ∧ (handlePinUnlock default_env sample_digest
       (fun _ : string => Some (@Rejected string)) 20000 20001 ui_unlock
       w_last_chance).1 = ui_unlock
  ∧ count (handlePinUnlock default_env sample_digest
             (fun _ : string => Some (@Rejected string)) 20000 20001 ui_unlock
             w_last_chance).2 = 0.
Proof.
  destruct (handlePinUnlock_accepted default_env sample_digest
              (fun jwk : string => Some (Fulfilled jwk)) 10000 10001 ui_unlock
              w_locked typed_w_locked)
    as (Hlogin & _); [by vm_compute|by vm_compute|by vm_compute|by vm_compute|].
  destruct (handlePinUnlock_accepted default_env sample_digest
              (fun _ : string => Some (@Rejected string)) 20000 20001 ui_unlock
              w_last_chance typed_w_last_chance)
    as (Hthrows & Hcount & _);
    [by vm_compute|by vm_compute|by vm_compute|by vm_compute|].
  split; [exact Hlogin|]. split; [exact Hthrows|exact Hcount].
Defined.

(** X8 on the locked sample: the fourth failure announces 16 seconds. *)
Lemma handlePinUnlock_invalid_witness :
  (handlePinUnlock default_env sample_digest (fun jwk : string => Some (Fulfilled jwk))
     10000 10001 ui_wrong w_locked).1
  = setInputPin []
      (setError "Invalid PIN. Backoff active: 16s"
         (setBackoffRemaining 16000 ui_wrong))
  ∧ count (handlePinUnlock default_env sample_digest (fun jwk : string => Some (Fulfilled jwk))
             10000 10001 ui_wrong w_locked).2 = 4.
Proof.
  destruct (handlePinUnlock_invalid default_env sample_digest
              (fun jwk : string => Some (Fulfilled jwk)) 10000 10001 ui_wrong w_locked)
    as (Hui & Hc & _);
    [by vm_compute|by vm_compute|by vm_compute|by vm_compute|by vm_compute|].
  split; [exact Hui|exact Hc].
Defined.

(** X9 on the sample one failure away from the maximum. *)
Lemma handlePinUnlock_wipe_witness :
  (handlePinUnlock default_env sample_digest (fun jwk : string => Some (Fulfilled jwk))
     20000 20001 ui_wrong w_last_chance).1
  = setInputPin [] (setError "Invalid PIN. 5 failed attempts will clear data." ui_wrong)
  ∧ (hasPin (handlePinUnlock default_env sample_digest (fun jwk : string => Some (Fulfilled jwk))
               20000 20001 ui_wrong w_last_chance).2).1 = false.
Proof.
  destruct (handlePinUnlock_wipe default_env sample_digest
              (fun jwk : string => Some (Fulfilled jwk)) 20000 20001 ui_wrong w_last_chance)
    as (Hui & _ & Hp & _); [by vm_compute|by vm_compute|by vm_compute|].
  split; [exact Hui|exact Hp].
Defined.

(** X10 on the locked sample: two seconds after the fourth failure, 14
    seconds are left, also for the right PIN. *)
Lemma handlePinUnlock_retry_witness :
  handlePinUnlock default_env sample_digest (fun jwk : string => Some (Fulfilled jwk))
    12001 12002 ui_unlock
    (handlePinUnlock default_env sample_digest (fun jwk : string => Some (Fulfilled jwk))
       10000 10001 ui_wrong w_locked).2
  = (setError "Brute-force protection: Please wait 14s"
       (setBackoffRemaining 14000 ui_unlock),
     (handlePinUnlock default_env sample_digest (fun jwk : string => Some (Fulfilled jwk))
        10000 10001 ui_wrong w_locked).2).
Proof.
  refine (handlePinUnlock_retry default_env sample_digest
            (fun jwk : string => Some (Fulfilled jwk)) 10000 10001 12001 12002
            ui_wrong ui_unlock w_locked _ _ _ _ _); by vm_compute.
Defined.

(** X11 on the locked sample: two more failures wipe the count, and the
    delay stays within 16 seconds. *)
Lemma failure_count_below_maximum_witness :
  0 <= count (runs default_env sample_digest
                [OpVerifyPin 10000 [48; 48; 48; 48];
                 OpVerifyPin 30000 [48; 48; 48; 48];
                 OpVerifyPin 30001 [49; 50; 51; 52]] w_locked) < 5
  ∧ (getBackoffDelay default_env
       (runs default_env sample_digest
          [OpVerifyPin 10000 [48; 48; 48; 48];
           OpVerifyPin 30000 [48; 48; 48; 48];
           OpVerifyPin 30001 [49; 50; 51; 52]] w_locked)).1 <= 16000.
Proof.
  destruct (failure_count_below_maximum default_env sample_digest
              [OpVerifyPin 10000 [48; 48; 48; 48];
               OpVerifyPin 30000 [48; 48; 48; 48];
               OpVerifyPin 30001 [49; 50; 51; 52]] w_locked)
    as (_ & Hc & Hd); [by vm_compute|exact typed_w_locked|vm_compute; by split|].
  split; [exact Hc|exact Hd].
Defined.

(** X17 on a text with an asterisk. *)
Lemma base64ToArrayBuffer_invalid_witness :
  base64ToArrayBuffer "ab*d" = None
  ∧ decryptData sample_decrypt [x01] "ab*d" "AAAA" = Throws InvalidCharacterError.
Proof.
  destruct (base64ToArrayBuffer_invalid sample_decrypt "ab*d" "*"%char)
    as [Hnone Hthrows];
    [by vm_compute; repeat constructor|reflexivity|reflexivity|discriminate|].
  split; [exact Hnone|]. exact (proj1 (Hthrows [x01] "AAAA")).
Defined.

(** X20 on a hostname with a digit for a letter. *)
Lemma checkDomainMatch_typo_witness :
  checkDomainMatch URL_hostname_model "https://paypa1.com/login" "https://paypal.com"
  = {| isMatch := false;
       warning := Some (phishing_warning "paypa1.com" "paypal.com") |}.
Proof.
  apply (checkDomainMatch_typo URL_hostname_model
           "https://paypa1.com/login" "https://paypal.com");
    [by vm_compute|by vm_compute|by vm_compute|].
  exists 1%nat. split; [lia|]. vm_compute.
  do 5 apply script_keep. apply script_subst. do 4 apply script_keep.
  apply script_nil.
Defined.

(** X21 on two copies and two runs of the event loop. *)
Lemma clipboard_pending_clear_witness :
  content (foldl clipboardStep clipboard_empty
             [Copy 0 [115] 30; Tick 1000; Copy 2000 [116] 30; Tick 40000]) = []
  ∨ ∃ d, (d, content (foldl clipboardStep clipboard_empty
                        [Copy 0 [115] 30; Tick 1000; Copy 2000 [116] 30; Tick 40000]))
         ∈ timers (foldl clipboardStep clipboard_empty
                     [Copy 0 [115] 30; Tick 1000; Copy 2000 [116] 30; Tick 40000]).
Proof.
  apply (clipboard_pending_clear
           [Copy 0 [115] 30; Tick 1000; Copy 2000 [116] 30; Tick 40000]
           clipboard_empty).
  - repeat (constructor; [discriminate|]). constructor.
  - by left.
Defined.

(** X22 on a copy for 30 seconds. *)
Lemma copyToClipboard_cleared_witness :
  content (runTimers true true 30000
             (copyToClipboard true 0 [115] 30 clipboard_empty)) = []
  ∧ content (runTimers true true 29999
               (copyToClipboard true 0 [115] 30 clipboard_empty)) = [115].
Proof.
  destruct (copyToClipboard_cleared 0 0 30000 [115] 30 clipboard_empty)
    as (Hclear & _ & _); [vm_compute; by split|].
  destruct (copyToClipboard_cleared 0 0 29999 [115] 30 clipboard_empty)
    as (_ & Hkeep & _); [vm_compute; by split|].
  split.
  - apply Hclear. by vm_compute.
  - apply Hkeep; [by vm_compute|]. intros d Hd. by apply elem_of_nil in Hd.
Defined.

(** X24 on a copy whose callback cannot read the clipboard. *)
Lemma copyToClipboard_unreadable_witness :
  foldl (fun c t' => runTimers true true t' c)
    (runTimers false true 30000 (copyToClipboard true 0 [115] 30 clipboard_empty))
    [31000; 60000]
  = {| content := [115]; timers := [] |}.
Proof.
  apply (copyToClipboard_unreadable true 0 30000 [115] 30 [31000; 60000]
           clipboard_empty).
  - reflexivity.
  - vm_compute. by split.
  - by vm_compute.
Defined.

(** X29 on the sample cipher and parser. *)
Lemma decryptSecret_encryptData_witness :
  decryptSecret sample_decrypt sample_parse [x01]
    {| SecretDTO.id := [97; 98; 99; 100; 101; 102; 103; 104; 105; 106];
       SecretDTO.encryptedData :=
         encrypted (encryptData sample_encrypt [x01]
                      (replicate CRYPTO_VALUES.IV_LENGTH x00) [104; 233]);
       SecretDTO.iv :=
         iv (encryptData sample_encrypt [x01]
               (replicate CRYPTO_VALUES.IV_LENGTH x00) [104; 233]) |}
  = {| DecryptedSecret.id := [97; 98; 99; 100; 101; 102; 103; 104; 105; 106];
       DecryptedSecret.name :=
         js_of_string "Secret " ++ [97; 98; 99; 100; 101; 102; 103; 104];
       DecryptedSecret.username := Some [117];
       DecryptedSecret.password := Some [104; 233] |}.
Proof.
  apply (decryptSecret_encryptData sample_encrypt sample_decrypt sample_parse
           [x01] (replicate CRYPTO_VALUES.IV_LENGTH x00) [104; 233]
           {| parsed_name := None; parsed_username := Some [117];
              parsed_password := Some [104; 233] |}
           [97; 98; 99; 100; 101; 102; 103; 104; 105; 106]
           sample_cipher_correct eq_refl).
  - by vm_compute.
  - reflexivity.
Defined.
